(** * csvjoin: an N-way join of CSV files on their common columns

    A shallow embedding of [csvjoin.go] and the properties of its join
    engine: key derivation, header reconciliation, loading, the key universe,
    the cross-product expansion and the row projection.

    Go strings are byte sequences and are modelled by [string] (a list of
    8-bit characters).  Go maps with string keys are [gmap string _]; a map
    index [m[k]] that is missing yields the zero value of the value type.
    The CSV reader and writer of the Go library are outside the program:
    a reader is the sequence of results its [Read] calls return, the writer
    receives rows. *)

From Stdlib Require Import String Ascii.
From stdpp Require Import gmap strings list fin_maps sorting.

(** ** Data model *)

(** [type Record map[string]string] *)
Abbreviation Record := (gmap string string).

(** [type DataCollection struct { data map[string][]Record }] *)
Record DataCollection := mkDataCollection {
  data : gmap string (list Record)
}.

(** [rec[c]] on a [Record]: the empty string when [c] is missing. *)
Definition rec_index (rec : Record) (c : string) : string :=
  default "" (rec !! c).

(** [dc.data[key]]: the nil slice when [key] is missing. *)
Definition data_index (dc : DataCollection) (key : string) : list Record :=
  default [] (data dc !! key).

(** How a run of the program can end: normally; with a diagnostic on
    standard error and exit status 1, through [log.Fatalf] or the usage
    message of [GetFileNames] (the message is kept without the values of
    errors and of [os.Args[0]]); or by a run-time panic (an index out of
    range). *)
Inductive outcome (A : Type) : Type :=
  | Ok (a : A)
  | Fatal (msg : string)
  | Panic.
Arguments Ok {A} a.
Arguments Fatal {A} msg.
Arguments Panic {A}.

Definition obind {A B} (m : outcome A) (k : A → outcome B) : outcome B :=
  match m with
  | Ok a => k a
  | Fatal msg => Fatal msg
  | Panic => Panic
  end.

Notation "x ←! m ; k" := (obind m (fun x => k))
  (at level 20, m at level 100, k at level 200, right associativity,
   format "x  ←!  m ;  '/' k").

(** ** Key derivation: [keyOf] of [ReadData] *)

(** The loop [for i, c := range joinColumns] over a [strings.Builder];
    [i] is the index of the head of [cols]. *)
Fixpoint keyOf_loop (i : nat) (cols : list string) (rec : Record)
    (sb : string) : string :=
  match cols with
  | [] => sb
  | c :: cols' =>
      let sb1 := if (0 <? i)%nat then sb +:+ "++" else sb in
      keyOf_loop (S i) cols' rec (sb1 +:+ rec_index rec c)
  end.

Definition keyOf (joinColumns : list string) (rec : Record) : string :=
  keyOf_loop 0 joinColumns rec "".

(** ** Iteration over Go maps

    [for k, v := range m] visits the entries of a map in an order the
    language leaves unspecified (and the runtime randomises), anew each time
    a loop starts.  A run of the program is therefore parameterised by the
    order each of its map loops visits its map in: [range n m] is the order
    of the loop numbered [n] over the map [m], some permutation of the
    entries.  The loop of [IdentifyJoinColumns] has number [0], the loop
    over the keys of source [i] number [S i], and the loop over [keyMap] the
    number after those. *)
Class MapRange := {
  range : ∀ {V : Type}, nat → gmap string V → list (string * V);
  range_perm : ∀ (V : Type) (n : nat) (m : gmap string V),
    range n m ≡ₚ map_to_list m
}.

(** ** CSV readers

    What one call of [csv.Reader.Read] returns besides [io.EOF]: a record
    with a nil error, or a non-EOF error together with whatever record the
    library hands back with it.  A reader is the list of the results its
    successive calls return; once the list is exhausted every call returns
    [io.EOF]. *)
Inductive read_result : Type :=
  | RRow (row : list string)
  | RErr (row : list string).

Abbreviation Reader := (list read_result).

Definition read_record (res : read_result) : list string :=
  match res with
  | RRow row => row
  | RErr row => row
  end.

(** ** Command line and files *)

(** [GetFileNames]: [args] is [os.Args[1:]]. *)
Definition GetFileNames (args : list string) : outcome (list string) :=
  if decide (length args < 2) then Fatal "usage: f1.csv f2.csv ..."
  else Ok args.

(** [OpenReaders]: [fs] gives, for each file that can be opened, the results
    a fresh CSV reader on it returns. *)
Fixpoint OpenReaders (fs : gmap string Reader) (fileNames : list string)
    : outcome (list Reader) :=
  match fileNames with
  | [] => Ok []
  | fName :: rest =>
      match fs !! fName with
      | None => Fatal ("cannot read CSV file " +:+ fName)
      | Some r =>
          readers ←! OpenReaders fs rest;
          Ok (r :: readers)
      end
  end.

(** ** Header reconciliation *)

(** [GatherAllHeaders]: one [Read] per reader.  Only [io.EOF] is tested; with
    any other error the returned record is taken as the header.  The readers
    are returned advanced past their first result. *)
Fixpoint GatherAllHeaders_loop (i : nat) (readers : list Reader)
    (fileNames : list string) : outcome (list (list string) * list Reader) :=
  match readers with
  | [] => Ok ([], [])
  | r :: rest =>
      match r with
      | [] =>
          match fileNames !! i with
          | None => Panic
          | Some fName =>
              Fatal ("CSV file " +:+ fName +:+ " has no headers. cannot process.")
          end
      | res :: r' =>
          hr ←! GatherAllHeaders_loop (S i) rest fileNames;
          Ok (read_record res :: hr.1, r' :: hr.2)
      end
  end.

Definition GatherAllHeaders (readers : list Reader) (fileNames : list string)
    : outcome (list (list string) * list Reader) :=
  GatherAllHeaders_loop 0 readers fileNames.

(** [headerCounts[col]++] *)
Definition count_col (headerCounts : gmap string nat) (col : string)
    : gmap string nat :=
  <[col := S (default 0 (headerCounts !! col))]> headerCounts.

(** The first pair of loops of [IdentifyJoinColumns]. *)
Definition headerCounts (allHeaders : list (list string)) : gmap string nat :=
  foldl (fun m header => foldl count_col m header) ∅ allHeaders.

(** The second loop of [IdentifyJoinColumns], over the entries of the map in
    the order they are visited. *)
Fixpoint select_join (n : nat) (entries : list (string * nat)) : list string :=
  match entries with
  | [] => []
  | (col, count) :: entries' =>
      if decide (count = n) then col :: select_join n entries'
      else select_join n entries'
  end.

Definition IdentifyJoinColumns `{MapRange} (allHeaders : list (list string))
    : outcome (list string) :=
  let joinColumns :=
    select_join (length allHeaders) (range 0 (headerCounts allHeaders)) in
  if decide (length joinColumns = 0) then
    Fatal "cannot identify columns common to all input files to join"
  else Ok joinColumns.

(** [type UniqueSlice struct { slice []string }] *)
Record UniqueSlice := mkUniqueSlice {
  slice : list string
}.

(** The loop of [UniqueSlice.Append]: is [s] already present? *)
Fixpoint Append_scan (xs : list string) (s : string) : bool :=
  match xs with
  | [] => false
  | x :: xs' => if decide (x = s) then true else Append_scan xs' s
  end.

Definition Append (u : UniqueSlice) (s : string) : UniqueSlice :=
  if Append_scan (slice u) s then u
  else mkUniqueSlice (slice u ++ [s]).

Definition GetSlice (u : UniqueSlice) : list string := slice u.

Definition IdentifyOutputColumns (allHeaders : list (list string))
    : list string :=
  GetSlice
    (foldl (fun u header => foldl Append u header) (mkUniqueSlice []) allHeaders).

(** ** Source loader *)

Definition NewDataCollection : DataCollection := mkDataCollection ∅.

(** [DataCollection.Add] *)
Definition Add (dc : DataCollection) (key : string) (rec : Record)
    : DataCollection :=
  let cur := data_index dc key in
  mkDataCollection (<[key := cur ++ [rec]]> (data dc)).

(** [recordOf] of [ReadData]: [headers[i]] panics when the row is longer
    than the header. *)
Fixpoint recordOf_loop (headers : list string) (i : nat) (row : list string)
    (r : Record) : outcome Record :=
  match row with
  | [] => Ok r
  | v :: row' =>
      match headers !! i with
      | None => Panic
      | Some n => recordOf_loop headers (S i) row' (<[n := v]> r)
      end
  end.

Definition recordOf (headers : list string) (row : list string)
    : outcome Record :=
  recordOf_loop headers 0 row ∅.

(** The reading loop of [ReadData]. *)
Fixpoint ReadData_loop (reader : Reader) (headers joinColumns : list string)
    (dc : DataCollection) : outcome DataCollection :=
  match reader with
  | [] => Ok dc
  | RErr _ :: _ => Fatal "failed to read/parse CSV input"
  | RRow row :: reader' =>
      rec ←! recordOf headers row;
      let key := keyOf joinColumns rec in
      ReadData_loop reader' headers joinColumns (Add dc key rec)
  end.

Definition ReadData (reader : Reader) (headers joinColumns : list string)
    : outcome DataCollection :=
  ReadData_loop reader headers joinColumns NewDataCollection.

(** ** Key universe *)

(** Go's [<] on strings: bytes compared as unsigned numbers from the left,
    a proper prefix before its extensions. *)
Inductive bytes_lt : string → string → Prop :=
  | bytes_lt_prefix (b : ascii) (t : string) :
      bytes_lt EmptyString (String b t)
  | bytes_lt_head (a b : ascii) (s t : string) :
      nat_of_ascii a < nat_of_ascii b → bytes_lt (String a s) (String b t)
  | bytes_lt_tail (a : ascii) (s t : string) :
      bytes_lt s t → bytes_lt (String a s) (String a t).

(** [sort.Strings] of the Go library, as a merge sort on the boolean
    comparison [String.leb] (through stdpp's [String.le]). *)
Definition sort_Strings (keys : list string) : list string :=
  merge_sort String.le keys.

(** [for k := range data.data { keyMap[k] = true }] *)
Definition mark_keys (keyMap : gmap string bool)
    (entries : list (string * list Record)) : gmap string bool :=
  foldl (fun km kv => <[kv.1 := true]> km) keyMap entries.

(** The loop of [ReadAllInputSources] over the readers. *)
Fixpoint ReadAll_loop `{MapRange} (i : nat) (readers : list Reader)
    (allHeaders : list (list string)) (joinColumns : list string)
    (keyMap : gmap string bool) (allData : list DataCollection)
    : outcome (gmap string bool * list DataCollection) :=
  match readers with
  | [] => Ok (keyMap, allData)
  | r :: rest =>
      match allHeaders !! i with
      | None => Panic
      | Some headers =>
          dc ←! ReadData r headers joinColumns;
          ReadAll_loop (S i) rest allHeaders joinColumns
            (mark_keys keyMap (range (S i) (data dc))) (allData ++ [dc])
      end
  end.

Definition ReadAllInputSources `{MapRange} (readers : list Reader)
    (allHeaders : list (list string)) (joinColumns : list string)
    : outcome (list string * list DataCollection) :=
  ka ←! ReadAll_loop 0 readers allHeaders joinColumns ∅ [];
  let keys := (range (S (length readers)) ka.1).*1 in
  Ok (sort_Strings keys, ka.2).

(** ** Join expander *)

(** [recurse], for a printer that acts on a state [St] (the output written
    so far).  [append(recs, rec)] is the list extended by [rec]; the slice
    model below accounts for the sharing of backing arrays. *)
Fixpoint recurse {St : Type} (key : string) (recs : list Record)
    (remain : list DataCollection) (prt : list Record → St → St) (st : St)
    : St :=
  match remain with
  | [] => prt recs st
  | this :: remain' =>
      let thisRecords := data_index this key in
      if decide (length thisRecords = 0) then
        recurse key recs remain' prt st
      else
        foldl (fun st' rec => recurse key (recs ++ [rec]) remain' prt st')
          st thisRecords
  end.

(** The record lists handed to the printer, in call order. *)
Definition combinations (key : string) (recs : list Record)
    (remain : list DataCollection) : list (list Record) :=
  recurse key recs remain (fun c acc => acc ++ [c]) [].

(** ** Row projector *)

(** The inner loop of [prt] for one column: the row after the loop and the
    flag [got]. *)
Fixpoint prt_scan (col : string) (recs : list Record) (row : list string)
    : list string * bool :=
  match recs with
  | [] => (row, false)
  | rec :: recs' =>
      match rec !! col with
      | Some v => (row ++ [v], true)
      | None => prt_scan col recs' row
      end
  end.

(** The outer loop of [prt]. *)
Fixpoint prt_loop (outputColumns : list string) (recs : list Record)
    (row : list string) : list string :=
  match outputColumns with
  | [] => row
  | col :: cols =>
      let sg := prt_scan col recs row in
      let row' := if sg.2 then sg.1 else sg.1 ++ [""] in
      prt_loop cols recs row'
  end.

(** The row [prt] hands to [writer.Write]. *)
Definition prt_row (outputColumns : list string) (recs : list Record)
    : list string :=
  prt_loop outputColumns recs [].

(** [prt]: the writer receives one more row ([out] is what it has received
    so far; the write itself is taken to succeed). *)
Definition prt (outputColumns : list string) (recs : list Record)
    (out : list (list string)) : list (list string) :=
  out ++ [prt_row outputColumns recs].

Definition WriteCSVs (key : string) (outputColumns : list string)
    (allData : list DataCollection) (out : list (list string))
    : list (list string) :=
  recurse key [] allData (prt outputColumns) out.

(** ** The program *)

(** Everything [main] does before it creates the writer. *)
Definition load `{MapRange} (fs : gmap string Reader) (args : list string)
    : outcome (list string * list string * list DataCollection) :=
  fileNames ←! GetFileNames args;
  readers ←! OpenReaders fs fileNames;
  hr ←! GatherAllHeaders readers fileNames;
  let allHeaders := hr.1 in
  joinColumns ←! IdentifyJoinColumns allHeaders;
  let outputColumns := IdentifyOutputColumns allHeaders in
  kd ←! ReadAllInputSources hr.2 allHeaders joinColumns;
  Ok (outputColumns, kd.1, kd.2).

(** The rows written to standard output and how the run ended. *)
Definition main `{MapRange} (fs : gmap string Reader) (args : list string)
    : list (list string) * outcome unit :=
  match load fs args with
  | Ok (outputColumns, allKeys, allData) =>
      (foldl (fun out key => WriteCSVs key outputColumns allData out)
         [outputColumns] allKeys, Ok ())
  | Fatal msg => ([], Fatal msg)
  | Panic => ([], Panic)
  end.

(** Two runs: one whose loops all visit maps in the order of
    [map_to_list], one whose loops all visit them in the reverse order. *)
Definition canonical_range : MapRange :=
  {| range := λ V _ m, map_to_list m;
     range_perm := λ V _ m, reflexivity (map_to_list m) |}.

Definition reversed_range : MapRange :=
  {| range := λ V _ m, reverse (map_to_list m);
     range_perm := λ V _ m, reverse_Permutation (map_to_list m) |}.

(** ** Slices with shared backing arrays

    [recurse] calls [append(recs, rec)] once per record with the same
    [recs].  A Go slice is a view (pointer, length, capacity) of a backing
    array, and [append] writes in place while the capacity allows, so the
    slices passed to sibling calls can share one array.  The memory is a list
    of arrays indexed by address; [growcap] is the capacity the runtime
    picks for a reallocation. *)
Module Slices.

Record slice := mkSlice {
  ptr : nat;
  len : nat;
  cap : nat
}.

Definition array_at (h : list (list Record)) (p : nat) : list Record :=
  default [] (h !! p).

(** The elements a slice denotes. *)
Definition view (h : list (list Record)) (s : slice) : list Record :=
  take (len s) (array_at h (ptr s)).

(** A slice within the bounds of an allocated array; the empty literal
    [[]Record{}] has capacity 0 and needs no array. *)
Definition slice_ok (h : list (list Record)) (s : slice) : Prop :=
  len s ≤ cap s ∧ (cap s = 0 ∨ length (array_at h (ptr s)) = cap s).

(** What a call may change in the memory [h] when it owns the slice [s]:
    cells of the array of [s] from position [len s] on, and arrays allocated
    since.  All other cells of [h] are as they were in [h']. *)
Definition unchanged (h h' : list (list Record)) (s : slice) : Prop :=
  length h ≤ length h' ∧
  ∀ p, p < length h →
    length (array_at h' p) = length (array_at h p) ∧
    ∀ i, (p = ptr s → i < len s) → array_at h' p !! i = array_at h p !! i.

Section WithRuntime.
Variable growcap : nat → nat.

(** [append(s, x)] *)
Definition go_append (h : list (list Record)) (s : slice) (x : Record)
    : list (list Record) * slice :=
  if decide (len s < cap s) then
    (alter (λ arr, <[len s := x]> arr) (ptr s) h,
     mkSlice (ptr s) (S (len s)) (cap s))
  else
    let c := S (len s) `max` growcap (S (len s)) in
    let arr := view h s ++ x :: replicate (c - S (len s)) (∅ : Record) in
    (h ++ [arr], mkSlice (length h) (S (len s)) c).

(** [recurse] on slices: the state pairs the memory with the printer's
    state, and the printer reads the elements of [recs] when called. *)
Fixpoint recurse_mem {St : Type} (key : string) (recs : slice)
    (remain : list DataCollection) (prt : list Record → St → St)
    (hs : list (list Record) * St) : list (list Record) * St :=
  match remain with
  | [] => (hs.1, prt (view hs.1 recs) hs.2)
  | this :: remain' =>
      let thisRecords := data_index this key in
      if decide (length thisRecords = 0) then
        recurse_mem key recs remain' prt hs
      else
        foldl (λ hs' rec,
                 let hs1 := go_append hs'.1 recs rec in
                 recurse_mem key hs1.2 remain' prt (hs1.1, hs'.2))
          hs thisRecords
  end.

End WithRuntime.

End Slices.

(** ** The specification's nested loops

    The cross product as the specification words it: one loop per source,
    the first source outermost; a source without a record for the key is
    passed over once. *)
Definition slots (key : string) (dc : DataCollection) : list (list Record) :=
  match data_index dc key with
  | [] => [[]]
  | recs => (fun rec => [rec]) <$> recs
  end.

Fixpoint nested_loops (choices : list (list (list Record)))
    : list (list Record) :=
  match choices with
  | [] => [[]]
  | first :: later =>
      c ← first; rest ← nested_loops later; [c ++ rest]
  end.

(** ** Predicates used in the statements *)

(** Two records agree on every join column. *)
Definition agree (joinColumns : list string) (r1 r2 : Record) : Prop :=
  ∀ c, c ∈ joinColumns → rec_index r1 c = rec_index r2 c.

(** Does the byte ['+'] occur in the string? *)
Fixpoint has_plus (s : string) : bool :=
  match s with
  | EmptyString => false
  | String a s' => if decide (a = "+"%char) then true else has_plus s'
  end.

(** No join-column value of the record contains ['+']. *)
Definition plus_free (joinColumns : list string) (r : Record) : Prop :=
  ∀ c, c ∈ joinColumns → has_plus (rec_index r c) = false.

(** What [keyOf_loop] appends once a first value has been written. *)
Fixpoint key_tail (rec : Record) (cols : list string) : string :=
  match cols with
  | [] => ""
  | c :: cols' => "++" +:+ rec_index rec c +:+ key_tail rec cols'
  end.

(** A string that is empty or starts with the separator's first byte. *)
Definition plus_headed (t : string) : Prop :=
  t = "" ∨ ∃ t', t = String "+" t'.

(** The claim of C1 at given inputs. *)
Definition key_iff_agree (joinColumns : list string) (r1 r2 : Record) : Prop :=
  keyOf joinColumns r1 = keyOf joinColumns r2 ↔ agree joinColumns r1 r2.


(** The value of the first record of the combination that defines the
    column, if any. *)
Fixpoint first_value (col : string) (recs : list Record) : option string :=
  match recs with
  | [] => None
  | rec :: recs' =>
      match rec !! col with
      | Some v => Some v
      | None => first_value col recs'
      end
  end.

(** The cell the specification asks for: the value of the first record, in
    combination order, that defines the column, and the empty string when no
    record of the combination defines it. *)
Inductive cell_of (recs : list Record) (col : string) : string → Prop :=
  | cell_first (i : nat) (rec : Record) (v : string) :
      recs !! i = Some rec →
      rec !! col = Some v →
      (∀ j rec', j < i → recs !! j = Some rec' → rec' !! col = None) →
      cell_of recs col v
  | cell_blank :
      (∀ rec, rec ∈ recs → rec !! col = None) →
      cell_of recs col "".

(** The product over the sources of [max n_i 1], where [n_i] is the number
    of records source [i] holds for the key. *)
Fixpoint row_count (key : string) (allData : list DataCollection) : nat :=
  match allData with
  | [] => 1
  | dc :: rest => (length (data_index dc key) `max` 1) * row_count key rest
  end.

(** [out] lists names in the order they are first seen in [all]: a name
    that comes earlier in [out] occurs in [all] before every occurrence of a
    name that comes later. *)
Definition in_first_seen_order (all out : list string) : Prop :=
  ∀ i j x y, i < j → out !! i = Some x → out !! j = Some y →
    ∃ p, all !! p = Some x ∧ ∀ q, q ≤ p → all !! q ≠ Some y.

(** The names of the headers appended one after the other to an empty
    [UniqueSlice]. *)
Definition unique_names (all : list string) : list string :=
  GetSlice (foldl Append (mkUniqueSlice []) all).

(** How many times a name occurs in a list of names, repetitions counted. *)
Fixpoint occurrences (c : string) (all : list string) : nat :=
  match all with
  | [] => 0
  | x :: rest => (if decide (x = c) then 1 else 0) + occurrences c rest
  end.

(** A name that appears in every header. *)
Definition common_column (allHeaders : list (list string)) (c : string) : Prop :=
  ∀ header, header ∈ allHeaders → c ∈ header.

(** ** Inputs used in the examples *)

(** Two files with the common columns [a] and [b]; the second has no data
    row. *)
Definition two_common_columns : gmap string Reader :=
  <["a.csv" := [RRow ["a"; "b"]; RRow ["1"; "2"]; RRow ["2"; "1"]]]>
    (<["b.csv" := [RRow ["a"; "b"]]]> ∅).

(** The header line of [a.csv] fails to parse after its first field [id]
    (a quote inside an unquoted second field): the reader returns the record
    [id] together with the parse error.  Its data rows have one field. *)
Definition bad_header_line : gmap string Reader :=
  <["a.csv" := [RErr ["id"]; RRow ["1"]; RRow ["2"]]]>
    (<["b.csv" := [RRow ["id"; "age"]; RRow ["1"; "30"]]]> ∅).

(** Scenario 1 of the specification. *)
Definition scenario1 : gmap string Reader :=
  <["a.csv" := [RRow ["id"; "name"]; RRow ["1"; "alice"]; RRow ["2"; "bob"]]]>
    (<["b.csv" := [RRow ["id"; "age"]; RRow ["1"; "30"]; RRow ["1"; "31"]]]> ∅).

(** The headers a run reads, when it gets that far. *)
Definition headers_read (fs : gmap string Reader) (args : list string)
    (allHeaders : list (list string)) : Prop :=
  ∃ fileNames readers hr,
    GetFileNames args = Ok fileNames ∧
    OpenReaders fs fileNames = Ok readers ∧
    GatherAllHeaders readers fileNames = Ok hr ∧
    allHeaders = hr.1.

(** The combination at position [p] of the nested order: the first source's
    choice is the quotient of [p] by the number of combinations of the later
    sources, and the later sources choose by the remainder, so the last
    source varies fastest. *)
Fixpoint pick (key : string) (allData : list DataCollection) (p : nat)
    : list Record :=
  match allData with
  | [] => []
  | dc :: rest =>
      let n := row_count key rest in
      default [] (slots key dc !! (p / n)) ++ pick key rest (p mod n)
  end.

(** Two files without a common column name. *)
Definition no_common_column : gmap string Reader :=
  <["a.csv" := [RRow ["id"; "name"]; RRow ["1"; "alice"]]]>
    (<["b.csv" := [RRow ["key"; "age"]; RRow ["1"; "30"]]]> ∅).

(** The second file has a header and no data row. *)
Definition header_only : gmap string Reader :=
  <["a.csv" := [RRow ["id"; "name"]; RRow ["1"; "alice"]; RRow ["2"; "bob"]]]>
    (<["b.csv" := [RRow ["id"; "age"]]]> ∅).

(** A read result that [ReadData] accepts: a row, without error, that is not
    longer than the header. *)
Definition row_fits (headers : list string) (res : read_result) : Prop :=
  ∃ row, res = RRow row ∧ length row ≤ length headers.

(** The record of the first result of a reader (of either kind). *)
Definition first_record (r : Reader) : list string :=
  match r with
  | [] => []
  | res :: _ => read_record res
  end.
(** * Properties *)

(** ** Key derivation *)

Lemma string_app_cons (a : ascii) (s t : string) :
  String a s +:+ t = String a (s +:+ t).
Proof. reflexivity. Qed.

Lemma string_app_nil_l (t : string) : "" +:+ t = t.
Proof. reflexivity. Qed.

Lemma string_app_assoc (s1 s2 s3 : string) :
  (s1 +:+ s2) +:+ s3 = s1 +:+ (s2 +:+ s3).
Proof.
  induction s1 as [|a s1 IH]; [done |].
  by rewrite !string_app_cons, IH.
Qed.

Lemma string_app_nil_r (s : string) : s +:+ "" = s.
Proof.
  induction s as [|a s IH]; [done |]. by rewrite string_app_cons, IH.
Qed.

Ltac string_app_norm :=
  rewrite ?string_app_cons, ?string_app_nil_l in *.

Lemma keyOf_loop_tail (i : nat) (cols : list string) (rec : Record) (sb : string) :
  keyOf_loop (S i) cols rec sb = sb +:+ key_tail rec cols.
Proof.
  revert i sb. induction cols as [|c cols IH]; intros i sb; simpl.
  - by rewrite string_app_nil_r.
  - rewrite IH. by rewrite !string_app_assoc.
Qed.

Lemma keyOf_cons (c : string) (cols : list string) (rec : Record) :
  keyOf (c :: cols) rec = rec_index rec c +:+ key_tail rec cols.
Proof. unfold keyOf. simpl. by rewrite keyOf_loop_tail. Qed.

(** X18: the key [keyOf] builds in its loop is the values of the join
    columns, in the order of the list, joined by the separator [++] (a
    missing column counting as the empty string); for no join column it is
    the empty string. *)
Lemma keyOf_concat (joinColumns : list string) (rec : Record) :
  keyOf joinColumns rec = String.concat "++" (rec_index rec <$> joinColumns).
Proof.
  destruct joinColumns as [|c cols]; [done |].
  rewrite keyOf_cons. revert c.
  induction cols as [|c' cols IH]; intros c.
  - simpl. by rewrite string_app_nil_r.
  - change (key_tail rec (c' :: cols))
      with ("++" +:+ rec_index rec c' +:+ key_tail rec cols).
    rewrite IH. reflexivity.
Qed.

Lemma key_tail_agree (cols : list string) (r1 r2 : Record) :
  agree cols r1 r2 → key_tail r1 cols = key_tail r2 cols.
Proof.
  induction cols as [|c cols IH]; intros Hag; simpl; [done |].
  rewrite (Hag c) by set_solver.
  rewrite IH; [done |]. intros c' Hc'. apply Hag. set_solver.
Qed.

Lemma keyOf_agree (joinColumns : list string) (r1 r2 : Record) :
  agree joinColumns r1 r2 → keyOf joinColumns r1 = keyOf joinColumns r2.
Proof.
  destruct joinColumns as [|c cols]; intros Hag; [done |].
  rewrite !keyOf_cons, (Hag c) by set_solver.
  f_equal. apply key_tail_agree. intros c' Hc'. apply Hag. set_solver.
Qed.

Lemma key_tail_plus_headed (rec : Record) (cols : list string) :
  plus_headed (key_tail rec cols).
Proof. destruct cols; [by left | right; simpl; eauto]. Qed.

(** Values without ['+'] are delimited unambiguously. *)
Lemma plus_free_split (v1 v2 t1 t2 : string) :
  has_plus v1 = false → has_plus v2 = false →
  plus_headed t1 → plus_headed t2 →
  v1 +:+ t1 = v2 +:+ t2 → v1 = v2 ∧ t1 = t2.
Proof.
  revert v2. induction v1 as [|a v1 IH]; intros [|b v2]; simpl;
    intros Hv1 Hv2 Ht1 Ht2 Heq; string_app_norm.
  - done.
  - destruct Ht1 as [-> | [t' ->]]; [done |].
    injection Heq as <- _. by rewrite decide_True in Hv2.
  - destruct Ht2 as [-> | [t' ->]]; [done |].
    injection Heq as -> _. by rewrite decide_True in Hv1.
  - injection Heq as -> Heq.
    case_decide; [done |].
    destruct (IH v2 Hv1 Hv2 Ht1 Ht2 Heq) as [-> ->]. done.
Qed.

Lemma key_tail_plus_free_inj (cols : list string) (r1 r2 : Record) :
  plus_free cols r1 → plus_free cols r2 →
  key_tail r1 cols = key_tail r2 cols → agree cols r1 r2.
Proof.
  induction cols as [|c cols IH]; intros Hf1 Hf2 Heq c' Hc'.
  - by apply elem_of_nil in Hc'.
  - simpl in Heq. apply (inj (String.app "++")) in Heq.
    assert (has_plus (rec_index r1 c) = false) as H1 by (apply Hf1; constructor).
    assert (has_plus (rec_index r2 c) = false) as H2 by (apply Hf2; constructor).
    destruct (plus_free_split _ _ _ _ H1 H2 (key_tail_plus_headed r1 cols)
                (key_tail_plus_headed r2 cols) Heq) as [Hv Ht].
    apply elem_of_cons in Hc' as [-> | Hc']; [done |].
    apply IH; [| | done | done]; intros c'' Hc''.
    + apply Hf1. set_solver.
    + apply Hf2. set_solver.
Qed.

(** C1, counterexample: with join columns [a, b], the rows [("++", "")] and
    [("", "++")] of a source with header [a, b] have the same key ["++++"]
    and differ on both join columns. *)
Lemma keyOf_separator_collision :
  ∃ r1 r2 : Record,
    recordOf ["a"; "b"] ["++"; ""] = Ok r1 ∧
    recordOf ["a"; "b"] [""; "++"] = Ok r2 ∧
    ¬ key_iff_agree ["a"; "b"] r1 r2.
Proof.
  eexists _, _. split; [reflexivity |]. split; [reflexivity |].
  intros [Hag _].
  assert ("a" ∈ ["a"; "b"]) as Hin by set_solver.
  pose proof (Hag eq_refl "a" Hin) as Hval.
  vm_compute in Hval. discriminate Hval.
Qed.

(** C1, amended: two records that agree on every join column have equal
    keys; and two records with equal keys agree on every join column when
    there is at most one join column or no join-column value of either record
    contains the byte ['+']. *)
Theorem keyOf_equal_iff_agree (joinColumns : list string) (r1 r2 : Record) :
  (agree joinColumns r1 r2 → keyOf joinColumns r1 = keyOf joinColumns r2) ∧
  (length joinColumns ≤ 1 ∨
     (plus_free joinColumns r1 ∧ plus_free joinColumns r2) →
   keyOf joinColumns r1 = keyOf joinColumns r2 → agree joinColumns r1 r2).
Proof.
  split; [apply keyOf_agree |].
  intros Hcond Heq. destruct joinColumns as [|c cols].
  { intros c Hc. by apply elem_of_nil in Hc. }
  rewrite !keyOf_cons in Heq.
  destruct Hcond as [Hlen | [Hf1 Hf2]].
  - destruct cols; [| simpl in Hlen; lia]. simpl in Heq.
    rewrite !string_app_nil_r in Heq.
    intros c' Hc'. apply list_elem_of_singleton in Hc' as ->. done.
  - assert (has_plus (rec_index r1 c) = false) as H1 by (apply Hf1; constructor).
    assert (has_plus (rec_index r2 c) = false) as H2 by (apply Hf2; constructor).
    destruct (plus_free_split _ _ _ _ H1 H2 (key_tail_plus_headed r1 cols)
                (key_tail_plus_headed r2 cols) Heq) as [Hv Ht].
    intros c' Hc'. apply elem_of_cons in Hc' as [-> | Hc']; [done |].
    revert c' Hc'. apply key_tail_plus_free_inj; [| | done]; intros c'' Hc''.
    + apply Hf1. set_solver.
    + apply Hf2. set_solver.
Qed.

(** The amended C1 at work: two rows that agree on the join columns [a, b]
    and differ elsewhere, and two rows without ['+'] that share their key. *)
Lemma keyOf_equal_iff_agree_witness :
  keyOf ["a"; "b"] (<["a" := "1"]> (<["b" := "x"]> (<["c" := "u"]> ∅)))
    = keyOf ["a"; "b"] (<["a" := "1"]> (<["b" := "x"]> (<["d" := "v"]> ∅))) ∧
  agree ["a"; "b"] (<["a" := "1"]> (<["b" := ""]> ∅))
    (<["b" := ""]> (<["a" := "1"]> (<["e" := "w"]> ∅))).
Proof.
  split.
  - apply (keyOf_equal_iff_agree ["a"; "b"]).
    intros c Hc. apply elem_of_cons in Hc as [-> | Hc]; [reflexivity |].
    apply list_elem_of_singleton in Hc as ->. reflexivity.
  - apply (keyOf_equal_iff_agree ["a"; "b"]); [| reflexivity].
    right. split; intros c Hc;
      (apply elem_of_cons in Hc as [-> | Hc];
       [reflexivity | apply list_elem_of_singleton in Hc as ->; reflexivity]).
Defined.

(** ** Row projector *)

Lemma prt_scan_first_value (col : string) (recs : list Record) (row : list string) :
  prt_scan col recs row =
    match first_value col recs with
    | Some v => (row ++ [v], true)
    | None => (row, false)
    end.
Proof.
  induction recs as [|rec recs IH]; simpl; [done |].
  destruct (rec !! col); [done | apply IH].
Qed.

Lemma prt_loop_cells (outputColumns : list string) (recs : list Record)
    (row : list string) :
  prt_loop outputColumns recs row =
    row ++ ((λ col, default "" (first_value col recs)) <$> outputColumns).
Proof.
  revert row. induction outputColumns as [|col cols IH]; intros row; simpl.
  - by rewrite app_nil_r.
  - rewrite prt_scan_first_value, IH.
    destruct (first_value col recs); simpl; by rewrite <- app_assoc.
Qed.

Lemma prt_row_cells (outputColumns : list string) (recs : list Record) :
  prt_row outputColumns recs =
    (λ col, default "" (first_value col recs)) <$> outputColumns.
Proof. unfold prt_row. by rewrite prt_loop_cells. Qed.

Lemma first_value_None (col : string) (recs : list Record) :
  first_value col recs = None → ∀ rec, rec ∈ recs → rec !! col = None.
Proof.
  induction recs as [|r recs IH]; simpl; intros Hfv rec Hin.
  - by apply elem_of_nil in Hin.
  - destruct (r !! col) eqn:Hr; [done |].
    apply elem_of_cons in Hin as [-> | Hin]; [done | by apply IH].
Qed.

Lemma first_value_Some (col : string) (recs : list Record) (v : string) :
  first_value col recs = Some v →
  ∃ i rec, recs !! i = Some rec ∧ rec !! col = Some v ∧
    ∀ j rec', j < i → recs !! j = Some rec' → rec' !! col = None.
Proof.
  induction recs as [|r recs IH]; simpl; [done |].
  destruct (r !! col) eqn:Hr.
  - intros [= ->]. exists 0, r. repeat split; [done |]. intros j rec' Hj. lia.
  - intros Hfv. destruct (IH Hfv) as (i & rec & Hi & Hv & Hbefore).
    exists (S i), rec. repeat split; [done.. |].
    intros [|j] rec' Hj Hlook; simpl in Hlook.
    + by injection Hlook as <-.
    + apply (Hbefore j); [lia | done].
Qed.

Lemma first_value_cell_of (col : string) (recs : list Record) :
  cell_of recs col (default "" (first_value col recs)).
Proof.
  destruct (first_value col recs) as [v|] eqn:Hfv; simpl.
  - destruct (first_value_Some _ _ _ Hfv) as (i & rec & Hi & Hv & Hbefore).
    by apply (cell_first recs col i rec v).
  - apply cell_blank. by apply first_value_None.
Qed.

(** C5: the cell emitted for an output column is the value of the first
    record of the combination (in combination order) that defines the column,
    and the empty string when no record of the combination defines it. *)
Theorem prt_row_first_defined (outputColumns : list string) (recs : list Record)
    (j : nat) (col : string) :
  outputColumns !! j = Some col →
  ∃ cell, prt_row outputColumns recs !! j = Some cell ∧ cell_of recs col cell.
Proof.
  intros Hcol. exists (default "" (first_value col recs)). split.
  - rewrite prt_row_cells, list_lookup_fmap, Hcol. done.
  - apply first_value_cell_of.
Qed.

Lemma prt_row_first_defined_witness :
  ∃ cell,
    prt_row ["id"; "name"; "age"]
      [<["id" := "2"]> (<["name" := "bob"]> ∅); <["id" := "3"]> ∅] !! 0
      = Some cell ∧
    cell_of [<["id" := "2"]> (<["name" := "bob"]> ∅); <["id" := "3"]> ∅]
      "id" cell.
Proof. apply (prt_row_first_defined ["id"; "name"; "age"]). reflexivity. Defined.

Lemma prt_row_length (outputColumns : list string) (recs : list Record) :
  length (prt_row outputColumns recs) = length outputColumns.
Proof. rewrite prt_row_cells. apply length_fmap. Qed.

(** ** Join expander *)

Lemma list_bind_singleton {A B : Type} (f : A → B) (l : list A) :
  l ≫= (λ x, [f x]) = f <$> l.
Proof.
  induction l as [|x l IH]; [done |]. by rewrite bind_cons, fmap_cons, IH.
Qed.

Lemma foldl_bind {A B St : Type} (g : St → B → St) (f : A → list B)
    (l : list A) (st : St) :
  foldl g st (l ≫= f) = foldl (λ st' x, foldl g st' (f x)) st l.
Proof.
  revert st. induction l as [|x l IH]; intros st; [done |].
  rewrite bind_cons, foldl_app, IH. done.
Qed.

Lemma foldl_fmap_list {A B St : Type} (g : St → B → St) (f : A → B)
    (l : list A) (st : St) :
  foldl g st (f <$> l) = foldl (λ st' x, g st' (f x)) st l.
Proof. revert st. induction l as [|x l IH]; intros st; simpl; [done | apply IH]. Qed.

Lemma foldl_ext_list {A St : Type} (g1 g2 : St → A → St) (l : list A) (st : St) :
  (∀ st' x, g1 st' x = g2 st' x) → foldl g1 st l = foldl g2 st l.
Proof.
  intros Hext. revert st.
  induction l as [|x l IH]; intros st; simpl; [done |]. by rewrite Hext, IH.
Qed.

Lemma foldl_snoc_fmap {A B : Type} (f : A → B) (l : list A) (acc : list B) :
  foldl (λ acc' x, acc' ++ [f x]) acc l = acc ++ (f <$> l).
Proof.
  revert acc. induction l as [|x l IH]; intros acc; simpl.
  - by rewrite app_nil_r.
  - by rewrite IH, <- app_assoc.
Qed.

Lemma slots_nil (key : string) (dc : DataCollection) :
  data_index dc key = [] → slots key dc = [[]].
Proof. unfold slots. by intros ->. Qed.

Lemma slots_records (key : string) (dc : DataCollection) :
  data_index dc key ≠ [] →
  slots key dc = (λ rec, [rec]) <$> data_index dc key.
Proof. unfold slots. by destruct (data_index dc key). Qed.

(** [recurse] runs the printer over the nested loops, each combination
    appended to the records accumulated so far. *)
Lemma recurse_nested_loops {St : Type} (key : string) (recs : list Record)
    (remain : list DataCollection) (prt : list Record → St → St) (st : St) :
  recurse key recs remain prt st =
    foldl (λ st' c, prt (recs ++ c) st') st (nested_loops (slots key <$> remain)).
Proof.
  revert recs st. induction remain as [|this remain IH]; intros recs st.
  - simpl. by rewrite app_nil_r.
  - cbn [recurse fmap list_fmap nested_loops].
    rewrite foldl_bind. case_decide as Hlen.
    + apply nil_length_inv in Hlen. rewrite (slots_nil _ _ Hlen). simpl.
      rewrite list_bind_singleton, foldl_fmap_list. apply IH.
    + rewrite slots_records by (intros Hnil; by rewrite Hnil in Hlen).
      rewrite foldl_fmap_list. apply foldl_ext_list. intros st' rec.
      rewrite list_bind_singleton, foldl_fmap_list, IH.
      apply foldl_ext_list. intros st'' c. by rewrite <- app_assoc.
Qed.

Lemma combinations_nested_loops (key : string) (recs : list Record)
    (remain : list DataCollection) :
  combinations key recs remain =
    (λ c, recs ++ c) <$> nested_loops (slots key <$> remain).
Proof.
  unfold combinations. rewrite recurse_nested_loops.
  apply (foldl_snoc_fmap (λ c, recs ++ c) _ []).
Qed.

(** The printer is called once per combination, in order. *)
Lemma recurse_combinations {St : Type} (key : string) (recs : list Record)
    (remain : list DataCollection) (prt : list Record → St → St) (st : St) :
  recurse key recs remain prt st =
    foldl (λ st' c, prt c st') st (combinations key recs remain).
Proof.
  by rewrite recurse_nested_loops, combinations_nested_loops, foldl_fmap_list.
Qed.

Lemma WriteCSVs_rows (key : string) (outputColumns : list string)
    (allData : list DataCollection) (out : list (list string)) :
  WriteCSVs key outputColumns allData out =
    out ++ (prt_row outputColumns <$> nested_loops (slots key <$> allData)).
Proof.
  unfold WriteCSVs. rewrite recurse_nested_loops. unfold prt. simpl.
  apply (foldl_snoc_fmap (prt_row outputColumns)).
Qed.

Lemma length_slots (key : string) (dc : DataCollection) :
  length (slots key dc) = length (data_index dc key) `max` 1.
Proof.
  unfold slots. destruct (data_index dc key) as [|rec recs]; [done |].
  rewrite length_fmap. simpl. lia.
Qed.

Lemma length_bind_const {A B : Type} (f : A → list B) (l : list A) (n : nat) :
  (∀ x, length (f x) = n) → length (l ≫= f) = length l * n.
Proof.
  intros Hf. induction l as [|x l IH]; [done |].
  rewrite bind_cons, length_app, Hf, IH. done.
Qed.

Lemma length_nested_loops (key : string) (allData : list DataCollection) :
  length (nested_loops (slots key <$> allData)) = row_count key allData.
Proof.
  induction allData as [|dc rest IH]; [done |].
  cbn [fmap list_fmap nested_loops row_count].
  rewrite (length_bind_const _ _ (row_count key rest)).
  - by rewrite length_slots.
  - intros c. by rewrite list_bind_singleton, length_fmap.
Qed.

Lemma row_count_pos (key : string) (allData : list DataCollection) :
  1 ≤ row_count key allData.
Proof. induction allData as [|dc rest IH]; simpl; [done | nia]. Qed.

Lemma nested_loops_absent (before after : list (list (list Record))) :
  nested_loops (before ++ [[]] :: after) = nested_loops (before ++ after).
Proof.
  induction before as [|first before IH]; simpl.
  - rewrite app_nil_r, list_bind_singleton. by rewrite list_fmap_id.
  - by rewrite IH.
Qed.

Lemma WriteCSVs_absent (key : string) (outputColumns : list string)
    (before after : list DataCollection) (dc : DataCollection)
    (out : list (list string)) :
  data_index dc key = [] →
  WriteCSVs key outputColumns (before ++ dc :: after) out
    = WriteCSVs key outputColumns (before ++ after) out.
Proof.
  intros Hnil. rewrite !WriteCSVs_rows, !fmap_app, fmap_cons.
  by rewrite (slots_nil _ _ Hnil), nested_loops_absent.
Qed.

(** C3: the number of data rows written for a key is the product, over the
    sources, of [max n_i 1] where [n_i] is the number of records source [i]
    holds for the key; the product is never zero, and a source without a
    record for the key leaves the rows of the key as they are without that
    source: it is passed over once and never suppresses them. *)
Theorem WriteCSVs_row_count (key : string) (outputColumns : list string)
    (allData : list DataCollection) (out : list (list string)) :
  length (WriteCSVs key outputColumns allData out)
    = length out + row_count key allData
  ∧ 1 ≤ row_count key allData
  ∧ (∀ before dc after,
       allData = before ++ dc :: after → data_index dc key = [] →
       WriteCSVs key outputColumns allData out
         = WriteCSVs key outputColumns (before ++ after) out).
Proof.
  split; [| split; [apply row_count_pos |]].
  - by rewrite WriteCSVs_rows, length_app, length_fmap, length_nested_loops.
  - intros before dc after -> Hnil. by apply WriteCSVs_absent.
Qed.

(** C3 on key [2] of Scenario 1: one record in the first source, none in
    the second. *)
Lemma WriteCSVs_row_count_witness :
  length (WriteCSVs "2" ["id"; "name"; "age"]
            [mkDataCollection {["2" := [{["id" := "2"; "name" := "bob"]}]]};
             mkDataCollection {["1" := [{["id" := "1"; "age" := "30"]}]]}] [])
    = 1 ∧
  WriteCSVs "2" ["id"; "name"; "age"]
    [mkDataCollection {["2" := [{["id" := "2"; "name" := "bob"]}]]};
     mkDataCollection {["1" := [{["id" := "1"; "age" := "30"]}]]}] []
  = WriteCSVs "2" ["id"; "name"; "age"]
      [mkDataCollection {["2" := [{["id" := "2"; "name" := "bob"]}]]}] [].
Proof.
  destruct (WriteCSVs_row_count "2" ["id"; "name"; "age"]
    [mkDataCollection {["2" := [{["id" := "2"; "name" := "bob"]}]]};
     mkDataCollection {["1" := [{["id" := "1"; "age" := "30"]}]]}] [])
    as (Hcount & _ & Habsent).
  split; [rewrite Hcount; reflexivity |].
  apply (Habsent [mkDataCollection {["2" := [{["id" := "2"; "name" := "bob"]}]]}]
           (mkDataCollection {["1" := [{["id" := "1"; "age" := "30"]}]]}) []);
    reflexivity.
Defined.

(** *** Positions in the nested order *)

Lemma lookup_bind_const {A B : Type} (f : A → list B) (l : list A) (n p : nat) :
  (∀ x, length (f x) = n) → 0 < n →
  (l ≫= f) !! p = l !! (p / n) ≫= λ x, f x !! (p mod n).
Proof.
  intros Hf Hn. revert p. induction l as [|x l IH]; intros p.
  - by rewrite !lookup_nil.
  - rewrite bind_cons. destruct (decide (p < n)) as [Hlt | Hge].
    + rewrite lookup_app_l by (by rewrite Hf).
      rewrite Nat.div_small, Nat.mod_small by done. done.
    + rewrite lookup_app_r by (rewrite Hf; lia). rewrite Hf, IH.
      assert (p = 1 * n + (p - n)) as Hp by lia.
      assert (p / n = S ((p - n) / n)) as ->.
      { rewrite Hp at 1. rewrite Nat.div_add_l by lia. done. }
      assert (p mod n = (p - n) mod n) as ->; [| done].
      rewrite Hp at 1. rewrite Nat.add_comm, Nat.Div0.mod_add. done.
Qed.

Lemma nested_loops_lookup (key : string) (allData : list DataCollection) (p : nat) :
  p < row_count key allData →
  nested_loops (slots key <$> allData) !! p = Some (pick key allData p).
Proof.
  revert p. induction allData as [|dc rest IH]; intros p Hp.
  - simpl in Hp. by replace p with 0 by lia.
  - cbn [fmap list_fmap nested_loops pick row_count] in *.
    pose proof (row_count_pos key rest) as Hpos.
    rewrite (lookup_bind_const _ _ (row_count key rest));
      [| intros c; by rewrite list_bind_singleton, length_fmap,
                     length_nested_loops | lia].
    assert (p / row_count key rest < length (slots key dc)) as Hq.
    { rewrite length_slots. apply Nat.Div0.div_lt_upper_bound. lia. }
    destruct (lookup_lt_is_Some_2 _ _ Hq) as [c Hc]. rewrite Hc. simpl.
    rewrite list_bind_singleton, list_lookup_fmap.
    rewrite IH by (apply Nat.mod_upper_bound; lia). done.
Qed.

(** *** The order of a source's records *)

Lemma data_index_Add (dc : DataCollection) (key : string) (rec : Record)
    (k : string) :
  data_index (Add dc key rec) k =
    if decide (k = key) then data_index dc k ++ [rec] else data_index dc k.
Proof.
  unfold Add, data_index. simpl. case_decide as Hk.
  - subst. by rewrite lookup_insert_eq.
  - by rewrite lookup_insert_ne.
Qed.

Lemma ReadData_loop_row_order (reader : Reader) (headers joinColumns : list string)
    (dc dc' : DataCollection) :
  ReadData_loop reader headers joinColumns dc = Ok dc' →
  ∃ recs,
    Forall2 (λ res rec, ∃ row, res = RRow row ∧ recordOf headers row = Ok rec)
      reader recs ∧
    ∀ k, data_index dc' k =
         data_index dc k ++ filter (λ rec, keyOf joinColumns rec = k) recs.
Proof.
  revert dc. induction reader as [|res reader IH]; intros dc; simpl.
  - intros [= <-]. exists []. split; [constructor |].
    intros k. by rewrite app_nil_r.
  - destruct res as [row | row]; [| done].
    destruct (recordOf headers row) as [rec | |] eqn:Hrec; simpl; [| done | done].
    intros Hloop. destruct (IH _ Hloop) as (recs & Hall & Hidx).
    exists (rec :: recs). split; [constructor; eauto |].
    intros k. rewrite Hidx, data_index_Add, filter_cons.
    destruct (decide (k = keyOf joinColumns rec)) as [-> | Hne].
    + rewrite decide_True by done. by rewrite <- app_assoc.
    + rewrite decide_False by done. done.
Qed.

(** The records a source holds for a key are the records of its rows with
    that key, in input row order. *)
Lemma ReadData_row_order (reader : Reader) (headers joinColumns : list string)
    (dc : DataCollection) :
  ReadData reader headers joinColumns = Ok dc →
  ∃ recs,
    Forall2 (λ res rec, ∃ row, res = RRow row ∧ recordOf headers row = Ok rec)
      reader recs ∧
    ∀ k, data_index dc k = filter (λ rec, keyOf joinColumns rec = k) recs.
Proof.
  intros Hread. destruct (ReadData_loop_row_order _ _ _ _ _ Hread)
    as (recs & Hall & Hidx).
  exists recs. split; [done |]. intros k. rewrite Hidx.
  unfold data_index, NewDataCollection. simpl. by rewrite lookup_empty.
Qed.

(** C8: the combinations handed to the printer for a key are those of the
    nested loops over the sources in source order, the first source
    outermost and the last innermost, appended to the records accumulated so
    far, so the combination at position [p] takes from the first source the
    choice numbered by the quotient of [p] by the number of combinations of
    the later sources; the rows are written in that order; and the records
    each loop runs over are the source's records for the key in input row
    order. *)
Theorem recurse_nested_order (key : string) (recs : list Record)
    (outputColumns : list string) (allData : list DataCollection)
    (out : list (list string)) :
  combinations key recs allData
    = (λ c, recs ++ c) <$> nested_loops (slots key <$> allData)
  ∧ (∀ p, p < row_count key allData →
       combinations key recs allData !! p = Some (recs ++ pick key allData p))
  ∧ WriteCSVs key outputColumns allData out
    = out ++ (prt_row outputColumns <$> combinations key [] allData)
  ∧ (∀ reader headers joinColumns dc,
       ReadData reader headers joinColumns = Ok dc →
       ∃ rows, Forall2 (λ res rec, ∃ row, res = RRow row ∧
                                   recordOf headers row = Ok rec) reader rows ∧
               data_index dc key =
                 filter (λ rec, keyOf joinColumns rec = key) rows).
Proof.
  split; [apply combinations_nested_loops |]. split; [| split].
  - intros p Hp.
    by rewrite combinations_nested_loops, list_lookup_fmap,
      nested_loops_lookup.
  - rewrite WriteCSVs_rows, combinations_nested_loops.
    by rewrite <- list_fmap_compose.
  - intros reader headers joinColumns dc Hread.
    destruct (ReadData_row_order _ _ _ _ Hread) as (rows & Hall & Hidx).
    exists rows. split; [done | apply Hidx].
Qed.

(** The nested order at work: two records of the first source and two of
    the third for the key, none of the second; and the records of a source
    whose first and third rows have the key. *)
Lemma recurse_nested_order_witness :
  combinations "1" []
    [mkDataCollection {["1" := [{["x" := "a1"]}; {["x" := "a2"]}]]};
     mkDataCollection ∅;
     mkDataCollection {["1" := [{["y" := "c1"]}; {["y" := "c2"]}]]}]
  = [[{["x" := "a1"]}; {["y" := "c1"]}]; [{["x" := "a1"]}; {["y" := "c2"]}];
     [{["x" := "a2"]}; {["y" := "c1"]}]; [{["x" := "a2"]}; {["y" := "c2"]}]]
  ∧ combinations "1" []
      [mkDataCollection {["1" := [{["x" := "a1"]}; {["x" := "a2"]}]]};
       mkDataCollection ∅;
       mkDataCollection {["1" := [{["y" := "c1"]}; {["y" := "c2"]}]]}] !! 2
    = Some [{["x" := "a2"]}; {["y" := "c1"]}]
  ∧ ∃ dc rows,
      ReadData [RRow ["1"; "30"]; RRow ["2"; "40"]; RRow ["1"; "31"]]
        ["id"; "age"] ["id"] = Ok dc ∧
      Forall2 (λ res rec, ∃ row, res = RRow row ∧
                            recordOf ["id"; "age"] row = Ok rec)
        [RRow ["1"; "30"]; RRow ["2"; "40"]; RRow ["1"; "31"]] rows ∧
      data_index dc "1" = filter (λ rec, keyOf ["id"] rec = "1") rows.
Proof.
  destruct (recurse_nested_order "1" [] []
    [mkDataCollection {["1" := [{["x" := "a1"]}; {["x" := "a2"]}]]};
     mkDataCollection ∅;
     mkDataCollection {["1" := [{["y" := "c1"]}; {["y" := "c2"]}]]}] [])
    as (Hcomb & Hpos & _ & Hrows).
  split; [rewrite Hcomb; vm_compute; reflexivity |].
  split; [rewrite (Hpos 2) by (vm_compute; lia); vm_compute; reflexivity |].
  eexists. 
  destruct (Hrows [RRow ["1"; "30"]; RRow ["2"; "40"]; RRow ["1"; "31"]]
              ["id"; "age"] ["id"] _ eq_refl) as (rows & Hall & Hidx).
  exists rows. split; [reflexivity |]. split; [exact Hall | exact Hidx].
Defined.

(** ** Output columns *)

Lemma Append_scan_elem_of (xs : list string) (s : string) :
  Append_scan xs s = true ↔ s ∈ xs.
Proof.
  induction xs as [|x xs IH]; simpl.
  - rewrite elem_of_nil. split; [done | tauto].
  - rewrite elem_of_cons. case_decide as Hx.
    + split; [intros _; by left | done].
    + rewrite IH. split; [by right |]. intros [Hs | Hs]; [congruence | done].
Qed.

Lemma foldl_Append_concat (u : UniqueSlice) (allHeaders : list (list string)) :
  foldl (λ u' header, foldl Append u' header) u allHeaders
    = foldl Append u (concat allHeaders).
Proof.
  revert u. induction allHeaders as [|h hs IH]; intros u; simpl; [done |].
  by rewrite foldl_app, IH.
Qed.

Lemma elem_of_concat (c : string) (allHeaders : list (list string)) :
  c ∈ concat allHeaders ↔ ∃ header, header ∈ allHeaders ∧ c ∈ header.
Proof.
  induction allHeaders as [|h hs IH]; simpl.
  - rewrite elem_of_nil. split; [done |]. intros (h & Hh & _).
    by apply elem_of_nil in Hh.
  - rewrite elem_of_app, IH. split.
    + intros [Hc | (h' & Hh' & Hc)].
      * exists h. split; [constructor | done].
      * exists h'. split; [by constructor | done].
    + intros (h' & Hh' & Hc). apply elem_of_cons in Hh' as [-> | Hh'].
      * by left.
      * right. eauto.
Qed.

Lemma IdentifyOutputColumns_unique_names (allHeaders : list (list string)) :
  IdentifyOutputColumns allHeaders = unique_names (concat allHeaders).
Proof.
  unfold IdentifyOutputColumns, unique_names. by rewrite foldl_Append_concat.
Qed.

Lemma unique_names_snoc (all : list string) (c : string) :
  unique_names (all ++ [c]) =
    if decide (c ∈ unique_names all) then unique_names all
    else unique_names all ++ [c].
Proof.
  unfold unique_names, GetSlice. rewrite foldl_snoc. unfold Append at 1.
  destruct (Append_scan _ c) eqn:Hscan.
  - apply Append_scan_elem_of in Hscan. by rewrite decide_True.
  - rewrite decide_False; [done |].
    intros Hin. apply Append_scan_elem_of in Hin. congruence.
Qed.

Lemma unique_names_elem_of (all : list string) (c : string) :
  c ∈ unique_names all ↔ c ∈ all.
Proof.
  induction all as [|d all IH] using rev_ind; [done |].
  rewrite unique_names_snoc, elem_of_app, list_elem_of_singleton.
  case_decide as Hd.
  - rewrite IH. split; [tauto |]. intros [Hc | ->]; [done | by apply IH].
  - by rewrite elem_of_app, list_elem_of_singleton, IH.
Qed.

Lemma unique_names_NoDup (all : list string) : NoDup (unique_names all).
Proof.
  induction all as [|d all IH] using rev_ind; [constructor |].
  rewrite unique_names_snoc. case_decide as Hd; [done |].
  apply NoDup_app. split; [done |]. split; [| apply NoDup_singleton].
  intros x Hx Hxd. apply list_elem_of_singleton in Hxd as ->. done.
Qed.

Lemma unique_names_order (all : list string) :
  in_first_seen_order all (unique_names all).
Proof.
  induction all as [|d all IH] using rev_ind.
  { intros i j x y _ Hi. change (unique_names []) with (@nil string) in Hi.
    by rewrite lookup_nil in Hi. }
  rewrite unique_names_snoc. intros i j x y Hij Hi Hj.
  assert (∀ p z, all !! p = Some z → (all ++ [d]) !! p = Some z) as Hext.
  { intros p z Hp. by apply lookup_app_l_Some. }
  case_decide as Hd.
  - destruct (IH i j x y Hij Hi Hj) as (p & Hp & Hbefore).
    exists p. split; [by apply Hext |]. intros q Hq.
    rewrite lookup_app_l by (apply lookup_lt_Some in Hp; lia).
    by apply Hbefore.
  - destruct (decide (j < length (unique_names all))) as [Hjlt | Hjge].
    + rewrite lookup_app_l in Hi by lia. rewrite lookup_app_l in Hj by lia.
      destruct (IH i j x y Hij Hi Hj) as (p & Hp & Hbefore).
      exists p. split; [by apply Hext |]. intros q Hq.
      rewrite lookup_app_l by (apply lookup_lt_Some in Hp; lia).
      by apply Hbefore.
    + pose proof (lookup_lt_Some _ _ _ Hj) as Hjlen.
      rewrite length_app in Hjlen. simpl in Hjlen.
      assert (j = length (unique_names all)) as -> by lia.
      rewrite list_lookup_middle in Hj by done. injection Hj as <-.
      rewrite lookup_app_l in Hi by lia.
      assert (x ∈ all) as Hx.
      { apply unique_names_elem_of. by apply list_elem_of_lookup_2 in Hi. }
      apply list_elem_of_lookup_1 in Hx as [p Hp].
      exists p. split; [by apply Hext |]. intros q Hq Hqd.
      rewrite lookup_app_l in Hqd by (apply lookup_lt_Some in Hp; lia).
      apply Hd, unique_names_elem_of. by apply list_elem_of_lookup_2 in Hqd.
Qed.

(** C6, counterexample: with the headers [a, a] and [a] the output column
    list is [a], shorter than the first header. *)
Lemma output_columns_shorter_than_header :
  ["a"; "a"] ∈ [["a"; "a"]; ["a"]] ∧
  ¬ length ["a"; "a"] ≤ length (IdentifyOutputColumns [["a"; "a"]; ["a"]]).
Proof. split; [constructor |]. vm_compute. lia. Qed.

(** C6, amended: the output column list holds each distinct column name of
    the headers exactly once, in first-seen order across the headers, and is
    at least as long as the number of distinct names of every single header
    (hence as every header that repeats no name). *)
Theorem IdentifyOutputColumns_distinct_first_seen
    (allHeaders : list (list string)) :
  NoDup (IdentifyOutputColumns allHeaders) ∧
  (∀ c, c ∈ IdentifyOutputColumns allHeaders ↔
        ∃ header, header ∈ allHeaders ∧ c ∈ header) ∧
  in_first_seen_order (concat allHeaders) (IdentifyOutputColumns allHeaders) ∧
  (∀ header, header ∈ allHeaders →
     length (remove_dups header) ≤ length (IdentifyOutputColumns allHeaders)) ∧
  (∀ header, header ∈ allHeaders → NoDup header →
     length header ≤ length (IdentifyOutputColumns allHeaders)).
Proof.
  rewrite IdentifyOutputColumns_unique_names.
  assert (∀ c, c ∈ unique_names (concat allHeaders) ↔
               ∃ header, header ∈ allHeaders ∧ c ∈ header) as Hmem.
  { intros c. by rewrite unique_names_elem_of, elem_of_concat. }
  assert (∀ l header, header ∈ allHeaders → NoDup l → (∀ c, c ∈ l → c ∈ header) →
            length l ≤ length (unique_names (concat allHeaders))) as Hlen.
  { intros l header Hin Hnd Hsub. apply submseteq_length, NoDup_submseteq; [done |].
    intros c Hc. apply Hmem. eauto. }
  split; [apply unique_names_NoDup |]. split; [done |].
  split; [apply unique_names_order |]. split.
  - intros header Hin. apply (Hlen _ header Hin); [apply NoDup_remove_dups |].
    intros c. by rewrite elem_of_remove_dups.
  - intros header Hin Hnd. by apply (Hlen _ header Hin).
Qed.

(** The amended C6 on the headers of Scenario 1. *)
Lemma IdentifyOutputColumns_distinct_first_seen_witness :
  length ["id"; "name"]
    ≤ length (IdentifyOutputColumns [["id"; "name"]; ["id"; "age"]]) ∧
  "age" ∈ IdentifyOutputColumns [["id"; "name"]; ["id"; "age"]].
Proof.
  destruct (IdentifyOutputColumns_distinct_first_seen
              [["id"; "name"]; ["id"; "age"]]) as (_ & Hmem & _ & _ & Hlen).
  split.
  - apply Hlen; [left |].
    apply (bool_decide_unpack (NoDup ["id"; "name"])). vm_compute. exact I.
  - apply Hmem. exists ["id"; "age"]. split; [right; left | right; left].
Defined.

(** ** Join columns *)

Lemma count_col_lookup (m : gmap string nat) (col c : string) :
  default 0 (count_col m col !! c) =
    default 0 (m !! c) + (if decide (col = c) then 1 else 0).
Proof.
  unfold count_col. case_decide as Hc.
  - subst. rewrite lookup_insert_eq. simpl. lia.
  - rewrite lookup_insert_ne by done. lia.
Qed.

Lemma count_col_positive (m : gmap string nat) (col : string) :
  (∀ c n, m !! c = Some n → 0 < n) →
  ∀ c n, count_col m col !! c = Some n → 0 < n.
Proof.
  intros Hpos c n. unfold count_col.
  destruct (decide (col = c)) as [-> | Hne].
  - rewrite lookup_insert_eq. intros [= <-]. lia.
  - rewrite lookup_insert_ne by done. apply Hpos.
Qed.

Lemma foldl_count_col_lookup (all : list string) (m : gmap string nat) (c : string) :
  default 0 (foldl count_col m all !! c) =
    default 0 (m !! c) + occurrences c all.
Proof.
  revert m. induction all as [|x all IH]; intros m; simpl; [lia |].
  rewrite IH, count_col_lookup. lia.
Qed.

Lemma foldl_count_col_positive (all : list string) (m : gmap string nat) :
  (∀ c n, m !! c = Some n → 0 < n) →
  ∀ c n, foldl count_col m all !! c = Some n → 0 < n.
Proof.
  revert m. induction all as [|x all IH]; intros m Hpos; simpl; [done |].
  apply IH. by apply count_col_positive.
Qed.

Lemma headerCounts_concat (allHeaders : list (list string)) :
  headerCounts allHeaders = foldl count_col ∅ (concat allHeaders).
Proof.
  unfold headerCounts. generalize (∅ : gmap string nat).
  induction allHeaders as [|h hs IH]; intros m; simpl; [done |].
  by rewrite foldl_app, IH.
Qed.

(** The map built by [IdentifyJoinColumns] holds, for each name, the number
    of its occurrences in all the headers, repetitions within a header
    included; names that do not occur have no entry. *)
Lemma headerCounts_lookup (allHeaders : list (list string)) (c : string) (n : nat) :
  headerCounts allHeaders !! c = Some n ↔
    occurrences c (concat allHeaders) = n ∧ 0 < n.
Proof.
  rewrite headerCounts_concat.
  pose proof (foldl_count_col_lookup (concat allHeaders) ∅ c) as Hdef.
  rewrite lookup_empty in Hdef. simpl in Hdef.
  pose proof (foldl_count_col_positive (concat allHeaders) ∅) as Hpos.
  destruct (foldl count_col ∅ (concat allHeaders) !! c) as [k|] eqn:Hk;
    simpl in Hdef.
  - assert (0 < k) by (apply (Hpos ltac:(by intros ??; rewrite lookup_empty) c k Hk)).
    split; [intros [= <-]; by split | intros [<- _]; by f_equal].
  - split; [done | intros [<- ?]; lia].
Qed.

Lemma select_join_elem_of (n : nat) (entries : list (string * nat)) (c : string) :
  c ∈ select_join n entries ↔ (c, n) ∈ entries.
Proof.
  induction entries as [|[col count] entries IH]; simpl.
  - by rewrite !elem_of_nil.
  - case_decide as Hn.
    + subst. rewrite !elem_of_cons, IH. split.
      * intros [-> | Hc]; [by left | by right].
      * intros [[= ->] | Hc]; [by left | by right].
    + rewrite elem_of_cons, IH. split; [by right |].
      intros [[= -> ->] | Hc]; [done | done].
Qed.

Lemma select_join_filter (n : nat) (entries : list (string * nat)) :
  select_join n entries = (filter (λ kv, kv.2 = n) entries).*1.
Proof.
  induction entries as [|[col count] entries IH]; [done |].
  simpl. rewrite filter_cons. simpl.
  case_decide; simpl; by rewrite IH.
Qed.

#[local] Instance select_join_Permutation (n : nat) :
  Proper ((≡ₚ) ==> (≡ₚ)) (select_join n).
Proof. intros l1 l2 Hperm. rewrite !select_join_filter. by rewrite Hperm. Qed.

Lemma range_lookup `{MapRange} {V : Type} (n : nat) (m : gmap string V)
    (k : string) (v : V) :
  (k, v) ∈ range n m ↔ m !! k = Some v.
Proof. rewrite range_perm. apply elem_of_map_to_list. Qed.

Lemma range_NoDup_keys `{MapRange} {V : Type} (n : nat) (m : gmap string V) :
  NoDup (range n m).*1.
Proof. rewrite range_perm. apply NoDup_fst_map_to_list. Qed.

(** What the code computes: the names whose occurrences, all counted, are as
    many as there are headers. *)
Lemma IdentifyJoinColumns_total_occurrences `{MapRange}
    (allHeaders : list (list string)) :
  let selected :=
    select_join (length allHeaders) (range 0 (headerCounts allHeaders)) in
  (∀ c, c ∈ selected ↔
     occurrences c (concat allHeaders) = length allHeaders ∧ allHeaders ≠ []) ∧
  NoDup selected ∧
  IdentifyJoinColumns allHeaders =
    (if decide (selected = []) then
       Fatal "cannot identify columns common to all input files to join"
     else Ok selected).
Proof.
  intros selected. split; [| split].
  - intros c. unfold selected.
    rewrite select_join_elem_of, range_lookup, headerCounts_lookup.
    destruct allHeaders; simpl; [split; intros [? ?]; [lia | done] |].
    split; intros [? ?]; (split; [done | done || lia]).
  - unfold selected. rewrite select_join_filter.
    eapply NoDup_fmap_fst.
    + intros k v1 v2 H1%list_elem_of_filter H2%list_elem_of_filter.
      destruct H1 as [H1 _], H2 as [H2 _]. simpl in *. congruence.
    + apply NoDup_filter. eapply NoDup_fmap_1, range_NoDup_keys.
  - unfold IdentifyJoinColumns. fold selected.
    destruct selected; simpl; done.
Qed.

Lemma occurrences_app (c : string) (l1 l2 : list string) :
  occurrences c (l1 ++ l2) = occurrences c l1 + occurrences c l2.
Proof. induction l1 as [|x l1 IH]; simpl; [done | rewrite IH; lia]. Qed.

Lemma occurrences_not_elem_of (c : string) (l : list string) :
  c ∉ l → occurrences c l = 0.
Proof.
  induction l as [|x l IH]; simpl; [done |].
  rewrite not_elem_of_cons. intros [Hne Hnin].
  rewrite decide_False by done. by rewrite IH.
Qed.

Lemma occurrences_NoDup (c : string) (l : list string) :
  NoDup l → occurrences c l = if decide (c ∈ l) then 1 else 0.
Proof.
  intros Hnd. case_decide as Hin; [| by apply occurrences_not_elem_of].
  induction Hnd as [|x l Hx Hnd IH]; [by apply elem_of_nil in Hin |].
  simpl. destruct (decide (x = c)) as [-> | Hne].
  - by rewrite occurrences_not_elem_of.
  - apply elem_of_cons in Hin as [-> | Hin]; [done |]. by rewrite IH.
Qed.

Lemma occurrences_concat_NoDup (c : string) (allHeaders : list (list string)) :
  Forall NoDup allHeaders →
  occurrences c (concat allHeaders) ≤ length allHeaders ∧
  (occurrences c (concat allHeaders) = length allHeaders ↔
   common_column allHeaders c).
Proof.
  unfold common_column.
  induction 1 as [|h hs Hnd _ [IHle IHeq]]; simpl.
  - split; [done |]. split; [| done]. intros _ h Hh. by apply elem_of_nil in Hh.
  - rewrite occurrences_app, (occurrences_NoDup _ _ Hnd).
    case_decide as Hin.
    + split; [lia |]. split.
      * intros Hocc h' Hh'. apply elem_of_cons in Hh' as [-> | Hh']; [done |].
        apply IHeq; [lia | done].
      * intros Hall. f_equal. apply IHeq. intros h' Hh'. apply Hall. by right.
    + split; [lia |]. split; [lia |].
      intros Hall. destruct Hin. apply Hall. by left.
Qed.

(** X10: on headers that repeat no name the code selects exactly the names
    common to all headers, and stops exactly when there is none, whatever
    the order the map is visited in. *)
Lemma IdentifyJoinColumns_common_columns `{MapRange}
    (allHeaders : list (list string)) :
  Forall NoDup allHeaders → allHeaders ≠ [] →
  (∀ joinColumns, IdentifyJoinColumns allHeaders = Ok joinColumns →
     ∀ c, c ∈ joinColumns ↔ common_column allHeaders c) ∧
  (IdentifyJoinColumns allHeaders =
     Fatal "cannot identify columns common to all input files to join"
   ↔ ∀ c, ¬ common_column allHeaders c).
Proof.
  intros Hnd Hne.
  destruct (IdentifyJoinColumns_total_occurrences allHeaders)
    as (Hmem & _ & Hres).
  assert (∀ c, c ∈ select_join (length allHeaders) (range 0 (headerCounts allHeaders))
               ↔ common_column allHeaders c) as Hcommon.
  { intros c. rewrite Hmem.
    rewrite (proj2 (occurrences_concat_NoDup c allHeaders Hnd)). tauto. }
  rewrite Hres. case_decide as Hsel.
  - split; [done |]. split; [| done].
    intros _ c Hc. apply Hcommon in Hc. rewrite Hsel in Hc.
    by apply elem_of_nil in Hc.
  - split; [by intros joinColumns [= <-] |]. split; [done |].
    intros Hnone. destruct Hsel. apply elem_of_nil_inv.
    intros c Hc. by apply (Hnone c), Hcommon.
Qed.

Lemma IdentifyJoinColumns_singleton `{MapRange} (allHeaders : list (list string))
    (entries : list (string * nat)) (c : string) :
  map_to_list (headerCounts allHeaders) ≡ₚ entries →
  select_join (length allHeaders) entries = [c] →
  IdentifyJoinColumns allHeaders = Ok [c].
Proof.
  intros Hentries Hsel. unfold IdentifyJoinColumns.
  assert (select_join (length allHeaders) (range 0 (headerCounts allHeaders)) = [c])
    as ->; [| done].
  apply Permutation_singleton_r. by rewrite range_perm, Hentries, Hsel.
Qed.

Lemma IdentifyJoinColumns_none `{MapRange} (allHeaders : list (list string))
    (entries : list (string * nat)) :
  map_to_list (headerCounts allHeaders) ≡ₚ entries →
  select_join (length allHeaders) entries = [] →
  IdentifyJoinColumns allHeaders =
    Fatal "cannot identify columns common to all input files to join".
Proof.
  intros Hentries Hsel. unfold IdentifyJoinColumns.
  assert (select_join (length allHeaders) (range 0 (headerCounts allHeaders)) = [])
    as ->; [| done].
  apply Permutation_nil_r. by rewrite range_perm, Hentries, Hsel.
Qed.

(** C2, the code at headers that repeat a name, whatever the iteration
    order of the map: with [a, a] and [b] it selects [a], which the second
    header lacks; with [a, a] and [a] it stops although [a] is in both. *)
Theorem IdentifyJoinColumns_repeated_name `{MapRange} :
  IdentifyJoinColumns [["a"; "a"]; ["b"]] = Ok ["a"] ∧
  ¬ common_column [["a"; "a"]; ["b"]] "a" ∧
  IdentifyJoinColumns [["a"; "a"]; ["a"]] =
    Fatal "cannot identify columns common to all input files to join" ∧
  common_column [["a"; "a"]; ["a"]] "a".
Proof.
  split; [| split; [| split]].
  - apply (IdentifyJoinColumns_singleton _ [("a", 2); ("b", 1)]);
      [by vm_compute | reflexivity].
  - intros Hall. specialize (Hall ["b"]).
    assert ("a" ∈ ["b"]) as Hin by (apply Hall; right; left).
    apply list_elem_of_singleton in Hin. discriminate Hin.
  - apply (IdentifyJoinColumns_none _ [("a", 3)]); [by vm_compute | reflexivity].
  - intros header Hin.
    apply elem_of_cons in Hin as [-> | Hin]; [left |].
    apply list_elem_of_singleton in Hin as ->. left.
Qed.

(** ** Key universe *)

Lemma ascii_compare_Lt (a b : ascii) :
  Ascii.compare a b = Lt ↔ nat_of_ascii a < nat_of_ascii b.
Proof.
  unfold Ascii.compare, nat_of_ascii. rewrite N.compare_lt_iff. lia.
Qed.

Lemma ascii_compare_refl (a : ascii) : Ascii.compare a a = Eq.
Proof. unfold Ascii.compare. apply N.compare_refl. Qed.

(** [String.compare] decides Go's order on strings. *)
Lemma bytes_lt_compare (s t : string) :
  bytes_lt s t ↔ String.compare s t = Lt.
Proof.
  split.
  - induction 1 as [b t | a b s t Hab | a s t _ IH]; simpl; [done | |].
    + apply ascii_compare_Lt in Hab. by rewrite Hab.
    + by rewrite ascii_compare_refl.
  - revert t. induction s as [|a s IH]; intros [|b t]; simpl; try done.
    + intros _. constructor.
    + destruct (Ascii.compare a b) eqn:Hab; [| | done].
      * apply Ascii.compare_eq_iff in Hab as ->. intros Hst.
        apply bytes_lt_tail. by apply IH.
      * intros _. apply bytes_lt_head. by apply ascii_compare_Lt.
Qed.

Lemma string_compare_refl (s : string) : String.compare s s = Eq.
Proof.
  induction s as [|a s IH]; simpl; [done |]. by rewrite ascii_compare_refl.
Qed.

Lemma bytes_lt_le_ne (s t : string) :
  bytes_lt s t ↔ String.le s t ∧ s ≠ t.
Proof.
  rewrite bytes_lt_compare. unfold String.le, String.leb. split.
  - intros Hlt. rewrite Hlt. split; [done |].
    intros ->. by rewrite string_compare_refl in Hlt.
  - intros [Hle Hne]. destruct (String.compare s t) eqn:Hcmp; [| done | done].
    by apply String.compare_eq_iff in Hcmp.
Qed.

Lemma StronglySorted_le_NoDup_lt (l : list string) :
  StronglySorted String.le l → NoDup l → StronglySorted bytes_lt l.
Proof.
  induction 1 as [|x l Hsorted IH Hall]; intros Hnd; [constructor |].
  apply NoDup_cons in Hnd as [Hx Hnd].
  constructor; [by apply IH |].
  apply Forall_forall. intros y Hy. apply bytes_lt_le_ne. split.
  - rewrite Forall_forall in Hall. by apply Hall.
  - intros ->. done.
Qed.

(** [sort.Strings] on distinct strings: the same strings, each before all
    the greater ones. *)
Lemma sort_Strings_strict (keys : list string) :
  NoDup keys →
  StronglySorted bytes_lt (sort_Strings keys) ∧ sort_Strings keys ≡ₚ keys.
Proof.
  intros Hnd. unfold sort_Strings.
  pose proof (merge_sort_Permutation String.le keys) as Hperm.
  split; [| done].
  apply StronglySorted_le_NoDup_lt.
  - apply StronglySorted_merge_sort; apply _.
  - by rewrite Hperm.
Qed.

(** The sorted keys do not depend on the order the map was visited in. *)
Lemma sort_Strings_Permutation (keys1 keys2 : list string) :
  keys1 ≡ₚ keys2 → sort_Strings keys1 = sort_Strings keys2.
Proof.
  intros Hperm. unfold sort_Strings.
  apply (Sorted_unique String.le).
  - apply Sorted_merge_sort; apply _.
  - apply Sorted_merge_sort; apply _.
  - by rewrite !merge_sort_Permutation.
Qed.

Lemma mark_keys_dom (entries : list (string * list Record))
    (keyMap : gmap string bool) (k : string) :
  k ∈ dom (mark_keys keyMap entries) ↔ k ∈ dom keyMap ∨ k ∈ entries.*1.
Proof.
  unfold mark_keys. revert keyMap.
  induction entries as [|[k' recs] entries IH]; intros keyMap; simpl.
  - rewrite elem_of_nil. tauto.
  - rewrite IH, dom_insert, elem_of_union, elem_of_singleton, elem_of_cons.
    tauto.
Qed.

Lemma range_keys_dom `{MapRange} {V : Type} (n : nat) (m : gmap string V)
    (k : string) :
  k ∈ (range n m).*1 ↔ k ∈ dom m.
Proof.
  rewrite elem_of_dom, list_elem_of_fmap. split.
  - intros ([k' v] & -> & Hkv). apply range_lookup in Hkv. eauto.
  - intros [v Hv]. exists (k, v). split; [done |]. by apply range_lookup.
Qed.

(** The loop over the readers: the collections loaded from the readers, in
    order, are appended, and their keys are added to the key map. *)
Lemma ReadAll_loop_spec `{MapRange} (readers : list Reader)
    (allHeaders : list (list string)) (joinColumns : list string) (i : nat)
    (keyMap keyMap' : gmap string bool) (allData allData' : list DataCollection) :
  ReadAll_loop i readers allHeaders joinColumns keyMap allData
    = Ok (keyMap', allData') →
  ∃ loaded,
    allData' = allData ++ loaded ∧
    length loaded = length readers ∧
    (∀ j dc, loaded !! j = Some dc → ∃ r headers,
        readers !! j = Some r ∧ allHeaders !! (i + j) = Some headers ∧
        ReadData r headers joinColumns = Ok dc) ∧
    ∀ k, k ∈ dom keyMap' ↔
         k ∈ dom keyMap ∨ ∃ dc, dc ∈ loaded ∧ k ∈ dom (data dc).
Proof.
  revert i keyMap allData.
  induction readers as [|r rest IH]; intros i keyMap allData; simpl.
  - intros [= <- <-]. exists []. rewrite app_nil_r.
    split; [done |]. split; [done |]. split; [by intros j dc Hj |].
    intros k. split; [by left |]. intros [Hk | (dc & Hdc & _)]; [done |].
    by apply elem_of_nil in Hdc.
  - destruct (allHeaders !! i) as [headers|] eqn:Hh; [| done].
    destruct (ReadData r headers joinColumns) as [dc | |] eqn:Hread; simpl;
      [| done | done].
    intros Hloop.
    destruct (IH _ _ _ Hloop) as (loaded & -> & Hlen & Hidx & Hdom).
    exists (dc :: loaded). split; [by rewrite <- app_assoc |].
    split; [simpl; by rewrite Hlen |]. split.
    + intros [|j] dc' Hj; simpl in Hj.
      * injection Hj as <-. exists r, headers. by rewrite Nat.add_0_r.
      * destruct (Hidx j dc' Hj) as (r' & h' & Hr' & Hh' & Hread').
        exists r', h'. split; [done |]. split; [| done].
        by replace (i + S j) with (S i + j) by lia.
    + intros k. rewrite Hdom, mark_keys_dom, range_keys_dom. split.
      * intros [[Hk | Hk] | (dc' & Hdc' & Hk)]; [by left | |].
        -- right. exists dc. split; [left | done].
        -- right. exists dc'. split; [by right | done].
      * intros [Hk | (dc' & Hdc' & Hk)]; [by left; left |].
        apply elem_of_cons in Hdc' as [-> | Hdc']; [by left; right |].
        right. eauto.
Qed.

(** The collections returned are those loaded from the readers, in order. *)
Lemma ReadAllInputSources_collections `{MapRange} (readers : list Reader)
    (allHeaders : list (list string)) (joinColumns keys : list string)
    (allData : list DataCollection) :
  ReadAllInputSources readers allHeaders joinColumns = Ok (keys, allData) →
  length allData = length readers ∧
  (∀ j dc, allData !! j = Some dc → ∃ r headers,
      readers !! j = Some r ∧ allHeaders !! j = Some headers ∧
      ReadData r headers joinColumns = Ok dc).
Proof.
  unfold ReadAllInputSources.
  destruct (ReadAll_loop 0 readers allHeaders joinColumns ∅ [])
    as [[keyMap loaded'] | |] eqn:Hloop; simpl; [| done | done].
  intros [= <- <-].
  destruct (ReadAll_loop_spec _ _ _ _ _ _ _ _ Hloop)
    as (loaded & -> & Hlen & Hidx & _). done.
Qed.

(** C7: the key universe returned by [ReadAllInputSources] is strictly
    sorted in byte-lexicographic ascending order (each key is below all
    later ones), has no duplicates, and holds exactly the keys present in
    some source's keyed collection, the collections being those loaded from
    the readers in order. *)
Theorem ReadAllInputSources_key_universe `{MapRange} (readers : list Reader)
    (allHeaders : list (list string)) (joinColumns keys : list string)
    (allData : list DataCollection) :
  ReadAllInputSources readers allHeaders joinColumns = Ok (keys, allData) →
  StronglySorted bytes_lt keys ∧
  NoDup keys ∧
  (∀ k, k ∈ keys ↔ ∃ dc, dc ∈ allData ∧ is_Some (data dc !! k)) ∧
  length allData = length readers ∧
  (∀ j dc, allData !! j = Some dc → ∃ r headers,
      readers !! j = Some r ∧ allHeaders !! j = Some headers ∧
      ReadData r headers joinColumns = Ok dc).
Proof.
  unfold ReadAllInputSources.
  destruct (ReadAll_loop 0 readers allHeaders joinColumns ∅ [])
    as [[keyMap loaded'] | |] eqn:Hloop; simpl; [| done | done].
  intros [= <- <-].
  destruct (ReadAll_loop_spec _ _ _ _ _ _ _ _ Hloop)
    as (loaded & -> & Hlen & Hidx & Hdom). simpl.
  destruct (sort_Strings_strict (range (S (length readers)) keyMap).*1
              (range_NoDup_keys _ keyMap))
    as [Hsorted Hperm].
  split; [done |]. split; [rewrite Hperm; apply range_NoDup_keys |].
  split; [| split].
  - intros k. rewrite Hperm, range_keys_dom, Hdom, dom_empty, elem_of_empty.
    split.
    + intros [[] | (dc & Hdc & Hk)]. exists dc. by rewrite <- elem_of_dom.
    + intros (dc & Hdc & Hk). right. exists dc. by rewrite elem_of_dom.
  - exact Hlen.
  - exact Hidx.
Qed.

(** A witness for C7: two sources loaded under the join column [id]. *)
Lemma ReadAllInputSources_key_universe_witness :
  ∃ keys allData,
    @ReadAllInputSources canonical_range
      [[RRow ["2"; "bob"]; RRow ["1"; "alice"]]; [RRow ["3"; "30"]; RRow ["1"; "31"]]]
      [["id"; "name"]; ["id"; "age"]] ["id"] = Ok (keys, allData) ∧
    StronglySorted bytes_lt keys ∧
    NoDup keys ∧
    (∀ k, k ∈ keys ↔ ∃ dc, dc ∈ allData ∧ is_Some (data dc !! k)) ∧
    length allData = 2.
Proof.
  eexists _, _. split; [vm_compute; reflexivity |].
  pose proof (@ReadAllInputSources_key_universe canonical_range
    [[RRow ["2"; "bob"]; RRow ["1"; "alice"]]; [RRow ["3"; "30"]; RRow ["1"; "31"]]]
    [["id"; "name"]; ["id"; "age"]] ["id"] _ _ eq_refl) as (H1 & H2 & H3 & H4 & _).
  split; [exact H1 |]. split; [exact H2 |]. split; [exact H3 | exact H4].
Defined.

(** ** The program *)

Lemma mark_keys_lookup (entries : list (string * list Record))
    (keyMap : gmap string bool) (k : string) :
  mark_keys keyMap entries !! k =
    if decide (k ∈ entries.*1) then Some true else keyMap !! k.
Proof.
  unfold mark_keys. revert keyMap.
  induction entries as [|[k' recs] entries IH]; intros keyMap; [done |].
  cbn [foldl fmap list_fmap fst].
  rewrite IH. destruct (decide (k ∈ entries.*1)) as [Hin | Hnin].
  - rewrite decide_True; [done | by right].
  - destruct (decide (k = k')) as [-> | Hne].
    + rewrite decide_True by left. apply lookup_insert_eq.
    + rewrite lookup_insert_ne by done. rewrite decide_False; [done |].
      rewrite not_elem_of_cons. done.
Qed.

Lemma mark_keys_Permutation (entries1 entries2 : list (string * list Record))
    (keyMap : gmap string bool) :
  entries1 ≡ₚ entries2 → mark_keys keyMap entries1 = mark_keys keyMap entries2.
Proof.
  intros Hperm. apply map_eq. intros k. rewrite !mark_keys_lookup.
  destruct (decide (k ∈ entries1.*1)) as [Hin | Hnin].
  - rewrite decide_True; [done | by rewrite <- Hperm].
  - rewrite decide_False; [done | by rewrite <- Hperm].
Qed.

Lemma ReadAll_loop_any_order (R1 R2 : MapRange) (readers : list Reader)
    (allHeaders : list (list string)) (joinColumns : list string) (i : nat)
    (keyMap : gmap string bool) (allData : list DataCollection) :
  @ReadAll_loop R1 i readers allHeaders joinColumns keyMap allData =
  @ReadAll_loop R2 i readers allHeaders joinColumns keyMap allData.
Proof.
  revert i keyMap allData.
  induction readers as [|r rest IH]; intros i keyMap allData; simpl; [done |].
  destruct (allHeaders !! i) as [headers|]; [| done].
  destruct (ReadData r headers joinColumns) as [dc | |]; simpl; [| done | done].
  rewrite IH. f_equal. apply mark_keys_Permutation.
  by rewrite !range_perm.
Qed.

(** Loading and the key universe do not depend on the order maps are
    visited in: [sort.Strings] removes it. *)
Lemma ReadAllInputSources_any_order (R1 R2 : MapRange) (readers : list Reader)
    (allHeaders : list (list string)) (joinColumns : list string) :
  @ReadAllInputSources R1 readers allHeaders joinColumns =
  @ReadAllInputSources R2 readers allHeaders joinColumns.
Proof.
  unfold ReadAllInputSources.
  rewrite (ReadAll_loop_any_order R1 R2).
  destruct (ReadAll_loop 0 readers allHeaders joinColumns ∅ [])
    as [[keyMap loaded] | |]; simpl; [| done | done].
  f_equal. f_equal. apply sort_Strings_Permutation.
  by rewrite !range_perm.
Qed.

(** Two runs on the same files differ at most through the order of the join
    columns. *)
Lemma main_any_order (R1 R2 : MapRange) (fs : gmap string Reader)
    (args : list string) :
  (∀ allHeaders, headers_read fs args allHeaders →
     @IdentifyJoinColumns R1 allHeaders = @IdentifyJoinColumns R2 allHeaders) →
  @main R1 fs args = @main R2 fs args.
Proof.
  intros Hjoin. unfold main.
  assert (@load R1 fs args = @load R2 fs args) as ->; [| done].
  unfold load.
  destruct (GetFileNames args) as [fileNames | |] eqn:Hargs; simpl; [| done | done].
  destruct (OpenReaders fs fileNames) as [readers | |] eqn:Hopen; simpl;
    [| done | done].
  destruct (GatherAllHeaders readers fileNames) as [hr | |] eqn:Hgather; simpl;
    [| done | done].
  rewrite (Hjoin hr.1) by (by exists fileNames, readers, hr).
  destruct (IdentifyJoinColumns hr.1) as [joinColumns | |]; simpl; [| done | done].
  by rewrite (ReadAllInputSources_any_order R1 R2).
Qed.

Lemma Permutation_short_eq {A : Type} (l1 l2 : list A) :
  l1 ≡ₚ l2 → length l2 ≤ 1 → l1 = l2.
Proof.
  intros Hperm Hlen. destruct l2 as [|x [|y l2]]; [| | simpl in Hlen; lia].
  - by apply Permutation_nil_r.
  - by apply Permutation_singleton_r.
Qed.

(** With at most one join column every run writes what the run in the
    order of [map_to_list] writes. *)
Lemma main_single_join_column `{MapRange} (fs : gmap string Reader)
    (args : list string) :
  (∀ allHeaders, headers_read fs args allHeaders →
     length (select_join (length allHeaders)
               (map_to_list (headerCounts allHeaders))) ≤ 1) →
  main fs args = @main canonical_range fs args.
Proof.
  intros Hone. apply main_any_order. intros allHeaders Hread.
  unfold IdentifyJoinColumns. simpl.
  rewrite (Permutation_short_eq
             (select_join (length allHeaders) (range 0 (headerCounts allHeaders)))
             (select_join (length allHeaders)
                (map_to_list (headerCounts allHeaders)))); [done | | by apply Hone].
  by rewrite range_perm.
Qed.

(** Computes the headers of a run on given files. *)
Ltac compute_headers_read :=
  let Hargs := fresh "Hargs" in
  let Hopen := fresh "Hopen" in
  let Hgather := fresh "Hgather" in
  intros ? (? & ? & ? & Hargs & Hopen & Hgather & ->);
  vm_compute in Hargs; injection Hargs as <-;
  vm_compute in Hopen; injection Hopen as <-;
  vm_compute in Hgather; injection Hgather as <-.

(** C4, the code on two files with the common columns [a] and [b] and the
    rows [(1, 2)] and [(2, 1)]: the run that visits the column counts in one
    order writes the rows in the order [(1, 2)], [(2, 1)], the run that
    visits them in the other order writes [(2, 1)], [(1, 2)]. *)
Theorem main_output_depends_on_map_order :
  @main canonical_range two_common_columns ["a.csv"; "b.csv"]
    = ([["a"; "b"]; ["1"; "2"]; ["2"; "1"]], Ok ()) ∧
  @main reversed_range two_common_columns ["a.csv"; "b.csv"]
    = ([["a"; "b"]; ["2"; "1"]; ["1"; "2"]], Ok ()).
Proof. split; vm_compute; reflexivity. Qed.

(** *** Fatal errors *)

(** A run that does not end normally has written nothing. *)
Lemma main_failure_no_output `{MapRange} (fs : gmap string Reader)
    (args : list string) :
  (main fs args).2 ≠ Ok () → (main fs args).1 = [].
Proof.
  unfold main.
  destruct (load fs args) as [[[outputColumns allKeys] allData] | |]; simpl;
    [intros Hne; by destruct Hne | done | done].
Qed.

(** A reader that is at its end when its header is read stops the run. *)
Lemma GatherAllHeaders_loop_missing_header (before after : list Reader)
    (fileNames : list string) (i : nat) (fName : string) :
  Forall (λ r, r ≠ []) before →
  fileNames !! (i + length before) = Some fName →
  GatherAllHeaders_loop i (before ++ [] :: after) fileNames
    = Fatal ("CSV file " +:+ fName +:+ " has no headers. cannot process.").
Proof.
  intros Hbefore. revert i.
  induction Hbefore as [|r before Hr _ IH]; intros i Hname; simpl.
  - rewrite Nat.add_0_r in Hname. by rewrite Hname.
  - destruct r as [|res r']; [done |].
    rewrite IH; [done |]. rewrite <- Hname. f_equal. simpl. lia.
Qed.

Lemma first_empty_reader (readers : list Reader) (j : nat) :
  readers !! j = Some [] →
  ∃ before after,
    readers = before ++ [] :: after ∧ Forall (λ r, r ≠ []) before.
Proof.
  revert j. induction readers as [|r readers IH]; intros j Hj; [done |].
  destruct r as [|res r'].
  - exists [], readers. split; [done | constructor].
  - destruct j as [|j]; [done |]. simpl in Hj.
    destruct (IH j Hj) as (before & after & -> & Hbefore).
    exists ((res :: r') :: before), after. split; [done |].
    constructor; [done | done].
Qed.

Lemma OpenReaders_length (fs : gmap string Reader) (fileNames : list string)
    (readers : list Reader) :
  OpenReaders fs fileNames = Ok readers → length readers = length fileNames.
Proof.
  revert readers. induction fileNames as [|fName rest IH]; intros readers; simpl.
  - by intros [= <-].
  - destruct (fs !! fName) as [r|]; [| done].
    destruct (OpenReaders fs rest) as [readers' | |]; simpl; [| done | done].
    intros [= <-]. simpl. by rewrite (IH readers').
Qed.

(** X8: a file without a header row is fatal: when every named file can be
    opened and the reader of one of them is at its end from the start, the
    run stops with the message that a file has no headers and nothing is
    written. *)
Lemma main_missing_header_fatal `{MapRange} (fs : gmap string Reader)
    (args : list string) (readers : list Reader) (j : nat) :
  GetFileNames args = Ok args →
  OpenReaders fs args = Ok readers →
  readers !! j = Some [] →
  ∃ fName,
    main fs args =
      ([], Fatal ("CSV file " +:+ fName +:+ " has no headers. cannot process.")).
Proof.
  intros Hargs Hopen Hj.
  destruct (first_empty_reader readers j Hj) as (before & after & -> & Hbefore).
  pose proof (OpenReaders_length _ _ _ Hopen) as Hlen.
  rewrite length_app in Hlen. simpl in Hlen.
  destruct (lookup_lt_is_Some_2 args (length before) ltac:(lia)) as [fName Hname].
  exists fName. unfold main, load. rewrite Hargs. simpl. rewrite Hopen. simpl.
  unfold GatherAllHeaders.
  by rewrite (GatherAllHeaders_loop_missing_header before after args 0 fName).
Qed.

(** An error on a data row stops the loading of the source. *)
Lemma ReadData_loop_error (before after : Reader) (row : list string)
    (headers joinColumns : list string) (dc : DataCollection) :
  ∀ dc', ReadData_loop (before ++ RErr row :: after) headers joinColumns dc
         ≠ Ok dc'.
Proof.
  revert dc. induction before as [|res before IH]; intros dc dc'; simpl; [done |].
  destruct res as [row' | row']; [| done].
  destruct (recordOf headers row') as [rec | |]; simpl; [apply IH | done | done].
Qed.

(** X9: a read or parse error on a data row is fatal: when the headers were
    read and the join columns found, and the reader of some source returns
    an error before its end, the run does not end normally and nothing is
    written. *)
Lemma main_data_error_fatal `{MapRange} (fs : gmap string Reader)
    (args fileNames : list string) (readers : list Reader)
    (hr : list (list string) * list Reader) (joinColumns : list string)
    (j : nat) (before after : Reader) (row : list string) :
  GetFileNames args = Ok fileNames →
  OpenReaders fs fileNames = Ok readers →
  GatherAllHeaders readers fileNames = Ok hr →
  IdentifyJoinColumns hr.1 = Ok joinColumns →
  hr.2 !! j = Some (before ++ RErr row :: after) →
  (main fs args).1 = [] ∧ (main fs args).2 ≠ Ok ().
Proof.
  intros Hargs Hopen Hgather Hjoin Hj.
  assert ((main fs args).2 ≠ Ok ()) as Hfail;
    [| split; [by apply main_failure_no_output | done]].
  unfold main, load. rewrite Hargs. simpl. rewrite Hopen. simpl.
  rewrite Hgather. simpl. rewrite Hjoin. simpl.
  destruct (ReadAllInputSources hr.2 hr.1 joinColumns)
    as [[keys allData] | |] eqn:Hread; simpl; [| done | done].
  exfalso.
  destruct (ReadAllInputSources_collections _ _ _ _ _ Hread) as [Hlen Hidx].
  destruct (lookup_lt_is_Some_2 allData j) as [dc Hdc].
  { rewrite Hlen. by apply lookup_lt_Some in Hj. }
  destruct (Hidx j dc Hdc) as (r & headers & Hr & _ & Hdata).
  rewrite Hj in Hr. injection Hr as <-.
  by apply ReadData_loop_error in Hdata.
Qed.

(** C9, the code on a file whose header line fails to parse: the error is
    not looked at, the record returned with it is taken as the header, and
    the run ends normally with the joined rows written, whatever the
    iteration order of the maps. *)
Theorem main_header_parse_error_not_fatal `{MapRange} :
  main bad_header_line ["a.csv"; "b.csv"]
    = ([["id"; "age"]; ["1"; "30"]; ["2"; ""]], Ok ()).
Proof.
  rewrite main_single_join_column; [vm_compute; reflexivity |].
  compute_headers_read. vm_compute. lia.
Qed.

(** *** The scenarios of the specification, for every run *)

Example scenario1_rows `{MapRange} :
  main scenario1 ["a.csv"; "b.csv"]
    = ([["id"; "name"; "age"]; ["1"; "alice"; "30"]; ["1"; "alice"; "31"];
        ["2"; "bob"; ""]], Ok ()).
Proof.
  rewrite main_single_join_column; [vm_compute; reflexivity |].
  compute_headers_read. vm_compute. lia.
Qed.

Example scenario2_no_common_column `{MapRange} :
  main no_common_column ["a.csv"; "b.csv"]
    = ([], Fatal "cannot identify columns common to all input files to join").
Proof.
  rewrite main_single_join_column; [vm_compute; reflexivity |].
  compute_headers_read. vm_compute. lia.
Qed.

Example scenario3_one_file `{MapRange} (fs : gmap string Reader) :
  main fs ["a.csv"] = ([], Fatal "usage: f1.csv f2.csv ...").
Proof. reflexivity. Qed.

Example scenario4_header_only `{MapRange} :
  main header_only ["a.csv"; "b.csv"]
    = ([["id"; "name"; "age"]; ["1"; "alice"; ""]; ["2"; "bob"; ""]], Ok ()).
Proof.
  rewrite main_single_join_column; [vm_compute; reflexivity |].
  compute_headers_read. vm_compute. lia.
Qed.


Lemma WriteCSVs_width (key : string) (outputColumns : list string)
    (allData : list DataCollection) (out : list (list string)) :
  Forall (λ row, length row = length outputColumns) out →
  Forall (λ row, length row = length outputColumns)
    (WriteCSVs key outputColumns allData out).
Proof.
  intros Hout. rewrite WriteCSVs_rows. apply Forall_app. split; [done |].
  apply Forall_fmap, Forall_forall. intros c _. apply prt_row_length.
Qed.

Lemma foldl_WriteCSVs_width (keys outputColumns : list string)
    (allData : list DataCollection) (out : list (list string)) :
  Forall (λ row, length row = length outputColumns) out →
  Forall (λ row, length row = length outputColumns)
    (foldl (λ out' key, WriteCSVs key outputColumns allData out') out keys).
Proof.
  revert out. induction keys as [|key keys IH]; intros out Hout; simpl; [done |].
  by apply IH, WriteCSVs_width.
Qed.

(** C10: the row the projector builds has exactly one cell per output
    column, for every combination of records (the empty one included); so
    every row a run writes is as wide as the header row written first. *)
Theorem prt_row_width `{MapRange} :
  (∀ outputColumns recs,
     length (prt_row outputColumns recs) = length outputColumns) ∧
  (∀ fs args header rows,
     (main fs args).1 = header :: rows →
     Forall (λ row, length row = length header) rows).
Proof.
  split; [apply prt_row_length |].
  intros fs args header rows. unfold main.
  destruct (load fs args) as [[[outputColumns allKeys] allData] | |];
    simpl; [| done | done].
  intros Hout.
  pose proof (foldl_WriteCSVs_width allKeys outputColumns allData
                [outputColumns]) as Hwidth.
  rewrite Hout in Hwidth.
  assert (Forall (λ row, length row = length outputColumns) (header :: rows))
    as Hall by (apply Hwidth; by constructor).
  apply Forall_cons in Hall as [Hheader Hrows].
  by rewrite Hheader.
Qed.

Lemma prt_row_width_witness :
  length (prt_row ["id"; "name"; "age"] []) = 3 ∧
  Forall (λ row : list string, length row = length ["id"; "name"; "age"])
    [["1"; "alice"; "30"]; ["1"; "alice"; "31"]; ["2"; "bob"; ""]].
Proof.
  destruct (@prt_row_width canonical_range) as [Hrow Hmain].
  split; [apply (Hrow ["id"; "name"; "age"] []) |].
  apply (Hmain scenario1 ["a.csv"; "b.csv"]). vm_compute. reflexivity.
Defined.

(** ** [recurse] on slices with shared backing arrays *)

Module SlicesFacts.
Import Slices.

Lemma unchanged_refl (h : list (list Record)) (s : slice) : unchanged h h s.
Proof. split; [done |]. intros p Hp. split; [done |]. by intros i _. Qed.

Lemma unchanged_trans (h1 h2 h3 : list (list Record)) (s : slice) :
  unchanged h1 h2 s → unchanged h2 h3 s → unchanged h1 h3 s.
Proof.
  intros [Hlen12 H12] [Hlen23 H23]. split; [lia |]. intros p Hp.
  destruct (H12 p Hp) as [Hl12 Hc12].
  destruct (H23 p ltac:(lia)) as [Hl23 Hc23].
  split; [congruence |]. intros i Hi. rewrite Hc23, Hc12; done.
Qed.

Lemma slice_ok_allocated (h : list (list Record)) (s : slice) :
  slice_ok h s → 0 < cap s →
  ptr s < length h ∧ length (array_at h (ptr s)) = cap s.
Proof.
  intros [Hle [Hcap | Harr]] Hpos; [lia |]. split; [| done].
  destruct (decide (ptr s < length h)) as [| Hge]; [done |].
  unfold array_at in Harr. rewrite lookup_ge_None_2 in Harr by lia.
  simpl in Harr. lia.
Qed.

Lemma length_view (h : list (list Record)) (s : slice) :
  slice_ok h s → length (view h s) = len s.
Proof.
  intros Hok. unfold view. rewrite length_take.
  destruct (decide (cap s = 0)) as [Hz | Hnz].
  - destruct Hok as [Hle _]. lia.
  - destruct (slice_ok_allocated h s Hok ltac:(lia)) as [_ Harr].
    destruct Hok as [Hle _]. lia.
Qed.

(** A slice reads the same elements, and stays within bounds, after a call
    that respected it. *)
Lemma view_unchanged (h h' : list (list Record)) (s : slice) :
  slice_ok h s → unchanged h h' s → view h' s = view h s ∧ slice_ok h' s.
Proof.
  intros Hok [Hlen Hcells].
  destruct (decide (cap s = 0)) as [Hz | Hnz].
  - destruct Hok as [Hle _]. assert (len s = 0) as Hl by lia.
    split; [unfold view; by rewrite Hl | split; [lia | by left]].
  - destruct (slice_ok_allocated h s Hok ltac:(lia)) as [Hptr Harr].
    destruct (Hcells (ptr s) Hptr) as [Hlen' Hsame].
    split; [| split; [apply Hok | right; congruence]].
    unfold view. apply list_eq. intros i.
    destruct (decide (i < len s)) as [Hi | Hi].
    + rewrite !lookup_take_lt by done. by apply Hsame.
    + rewrite !lookup_take_ge by lia. done.
Qed.

Section WithRuntime.
Variable growcap : nat → nat.

(** [append] yields a slice that reads the old elements followed by the new
    one. *)
Lemma go_append_view (h : list (list Record)) (s : slice) (x : Record) :
  slice_ok h s →
  view (go_append growcap h s x).1 (go_append growcap h s x).2 = view h s ++ [x] ∧
  slice_ok (go_append growcap h s x).1 (go_append growcap h s x).2.
Proof.
  intros Hok. unfold go_append. case_decide as Hroom; simpl.
  - destruct (slice_ok_allocated h s Hok ltac:(lia)) as [Hptr Harr].
    destruct (lookup_lt_is_Some_2 h (ptr s) Hptr) as [arr Hh].
    unfold array_at in Harr. rewrite Hh in Harr. simpl in Harr.
    assert (array_at (alter (λ arr0, <[len s := x]> arr0) (ptr s) h) (ptr s)
            = <[len s := x]> arr) as Halt.
    { unfold array_at. by rewrite list_lookup_alter_eq, Hh. }
    split.
    + unfold view. simpl. rewrite Halt.
      rewrite (take_S_r _ _ x) by (apply list_lookup_insert_eq; lia).
      rewrite take_insert_ge by lia. unfold array_at. by rewrite Hh.
    + split; simpl; [lia |]. right. rewrite Halt, length_insert. done.
  - pose proof (length_view h s Hok) as Hlv.
    assert (array_at (h ++ [view h s ++ x ::
                       replicate (S (len s) `max` growcap (S (len s)) - S (len s)) ∅])
              (length h)
            = view h s ++ x ::
                replicate (S (len s) `max` growcap (S (len s)) - S (len s)) ∅)
      as Hnew.
    { unfold array_at. by rewrite list_lookup_middle. }
    split.
    + unfold view at 1. simpl. rewrite Hnew.
      rewrite take_app_ge by lia. rewrite Hlv.
      replace (S (len s) - len s) with 1 by lia. done.
    + split; simpl; [lia |]. right. rewrite Hnew.
      rewrite length_app. simpl. rewrite length_replicate. lia.
Qed.

(** What a call on the appended slice leaves alone, the caller's slice
    included: the in-place write goes to the cell just past the caller's
    elements. *)
Lemma go_append_unchanged (h h2 : list (list Record)) (s : slice) (x : Record) :
  slice_ok h s →
  unchanged (go_append growcap h s x).1 h2 (go_append growcap h s x).2 →
  unchanged h h2 s.
Proof.
  intros Hok. unfold go_append. case_decide as Hroom; simpl;
    intros [Hlen Hcells].
  - rewrite length_alter in Hlen. split; [done |]. intros p Hp.
    destruct (Hcells p) as [Hl Hc]; [by rewrite length_alter |].
    simpl in Hc.
    destruct (decide (p = ptr s)) as [-> | Hne].
    + destruct (lookup_lt_is_Some_2 h (ptr s) Hp) as [arr Hh].
      assert (array_at (alter (λ arr0, <[len s := x]> arr0) (ptr s) h) (ptr s)
              = <[len s := x]> arr) as Halt.
      { unfold array_at. by rewrite list_lookup_alter_eq, Hh. }
      rewrite Halt in Hl, Hc. rewrite length_insert in Hl.
      assert (array_at h (ptr s) = arr) as Harr.
      { unfold array_at. by rewrite Hh. }
      rewrite Harr. split; [done |]. intros i Hi. specialize (Hi eq_refl).
      rewrite Hc by (intros _; lia).
      apply list_lookup_insert_ne. lia.
    + assert (array_at (alter (λ arr0, <[len s := x]> arr0) (ptr s) h) p
              = array_at h p) as Halt.
      { unfold array_at. by rewrite list_lookup_alter_ne. }
      rewrite Halt in Hl, Hc. split; [done |]. intros i _.
      apply Hc. intros Heq. done.
  - rewrite length_app in Hlen. simpl in Hlen. split; [lia |]. intros p Hp.
    destruct (Hcells p) as [Hl Hc]; [rewrite length_app; simpl; lia |].
    simpl in Hc.
    assert (∀ arr, array_at (h ++ [arr]) p = array_at h p) as Hold.
    { intros arr. unfold array_at. by rewrite lookup_app_l. }
    rewrite Hold in Hl, Hc. split; [done |]. intros i _.
    apply Hc. intros Heq. lia.
Qed.

(** [recurse] on slices calls the printer on the same record lists, in the
    same order, as [recurse] on lists: the sharing of backing arrays between
    sibling calls is never observed. *)
Lemma recurse_mem_refines {St : Type} (key : string)
    (remain : list DataCollection) (prt : list Record → St → St)
    (s : slice) (h : list (list Record)) (st : St) :
  slice_ok h s →
  (recurse_mem growcap key s remain prt (h, st)).2
    = recurse key (view h s) remain prt st ∧
  unchanged h (recurse_mem growcap key s remain prt (h, st)).1 s.
Proof.
  revert s h st. induction remain as [|this remain IH]; intros s h st Hok.
  - simpl. split; [done | apply unchanged_refl].
  - cbn [recurse_mem recurse]. case_decide as Hlen; [by apply IH |].
    assert (∀ recs h1 st1, unchanged h h1 s →
      (foldl (λ hs' rec,
                recurse_mem growcap key (go_append growcap hs'.1 s rec).2 remain prt
                  ((go_append growcap hs'.1 s rec).1, hs'.2)) (h1, st1) recs).2
       = foldl (λ st' rec, recurse key (view h s ++ [rec]) remain prt st') st1 recs ∧
      unchanged h
        (foldl (λ hs' rec,
                  recurse_mem growcap key (go_append growcap hs'.1 s rec).2 remain prt
                    ((go_append growcap hs'.1 s rec).1, hs'.2)) (h1, st1) recs).1 s)
      as Hloop; [| apply Hloop, unchanged_refl].
    clear Hlen. intros recs.
    induction recs as [|rec recs IHrecs]; intros h1 st1 Hun; [done |].
    cbn [foldl fst snd].
    destruct (view_unchanged h h1 s Hok Hun) as [Hview Hok1].
    destruct (go_append_view h1 s rec Hok1) as [Hview1 Hok2].
    destruct (IH _ _ st1 Hok2) as [Hres Hun2].
    rewrite Hview1, Hview in Hres.
    apply go_append_unchanged in Hun2; [| done].
    set (hs2 := recurse_mem growcap key (go_append growcap h1 s rec).2 remain prt
                  ((go_append growcap h1 s rec).1, st1)) in *.
    destruct hs2 as [h2 st2]. simpl in Hres, Hun2. subst st2.
    apply IHrecs. by apply (unchanged_trans h h1 h2).
Qed.

End WithRuntime.

(** [WriteCSVs] starts from the empty slice literal, which is within
    bounds in every memory. *)
Lemma recurse_mem_WriteCSVs (growcap : nat → nat) (key : string)
    (outputColumns : list string) (allData : list DataCollection)
    (h : list (list Record)) (out : list (list string)) :
  (recurse_mem growcap key (mkSlice 0 0 0) allData (prt outputColumns) (h, out)).2
    = WriteCSVs key outputColumns allData out.
Proof.
  destruct (recurse_mem_refines growcap key allData (prt outputColumns)
              (mkSlice 0 0 0) h out) as [Hres _].
  { split; simpl; [lia | by left]. }
  by rewrite Hres.
Qed.

End SlicesFacts.

(** * Further properties of the code *)

(** ** Records of rows: [recordOf] *)

Lemma recordOf_loop_panic (headers row : list string) (i : nat) (r : Record) :
  i ≤ length headers → length headers < i + length row →
  recordOf_loop headers i row r = Panic.
Proof.
  revert i r. induction row as [|v row IH]; intros i r Hi Hlen; simpl in *; [lia |].
  destruct (headers !! i) as [n|] eqn:Hn; [| done].
  apply lookup_lt_Some in Hn. apply IH; lia.
Qed.

Lemma recordOf_loop_Ok (headers row : list string) (i : nat) (r : Record) :
  i + length row ≤ length headers → ∃ r', recordOf_loop headers i row r = Ok r'.
Proof.
  revert i r. induction row as [|v row IH]; intros i r Hlen; simpl in *; [eauto |].
  destruct (lookup_lt_is_Some_2 headers i ltac:(lia)) as [n Hn]. rewrite Hn.
  apply IH. lia.
Qed.

(** The entry of a name after the loop: the value at the last position of
    the row whose header is the name, and the entry before the loop when no
    position of the row has it. *)
Lemma recordOf_loop_lookup (headers row : list string) (i : nat) (r r' : Record)
    (c v : string) :
  recordOf_loop headers i row r = Ok r' →
  r' !! c = Some v ↔
    (∃ j, headers !! (i + j) = Some c ∧ row !! j = Some v ∧
          ∀ j', j < j' → j' < length row → headers !! (i + j') ≠ Some c) ∨
    (r !! c = Some v ∧ ∀ j, j < length row → headers !! (i + j) ≠ Some c).
Proof.
  revert i r. induction row as [|v0 row IH]; intros i r; simpl.
  - intros [= <-]. split.
    + intros Hr. right. split; [done | intros j Hj; lia].
    + intros [(j & _ & Hj & _) | [Hr _]]; [by rewrite lookup_nil in Hj | done].
  - destruct (headers !! i) as [n|] eqn:Hn; [| done].
    intros Hloop. rewrite (IH _ _ Hloop). split.
    + intros [(j & Hh & Hv & Hlast) | [Hr Hnone]].
      * left. exists (S j). replace (i + S j) with (S i + j) by lia.
        split; [done |]. split; [done |]. intros [|j'] Hlt Hlen; [lia |].
        replace (i + S j') with (S i + j') by lia. apply Hlast; lia.
      * destruct (decide (n = c)) as [-> | Hne].
        -- rewrite lookup_insert_eq in Hr. injection Hr as ->.
           left. exists 0. rewrite Nat.add_0_r. split; [done |]. split; [done |].
           intros [|j'] Hlt Hlen; [lia |].
           replace (i + S j') with (S i + j') by lia. apply Hnone. lia.
        -- rewrite lookup_insert_ne in Hr by done. right. split; [done |].
           intros [|j] Hlen.
           ++ rewrite Nat.add_0_r, Hn. congruence.
           ++ replace (i + S j) with (S i + j) by lia. apply Hnone. lia.
    + intros [(j & Hh & Hv & Hlast) | [Hr Hnone]].
      * destruct j as [|j].
        -- right. rewrite Nat.add_0_r, Hn in Hh. injection Hh as ->.
           simpl in Hv. injection Hv as ->. rewrite lookup_insert_eq.
           split; [done |]. intros j Hj.
           replace (S i + j) with (i + S j) by lia. apply Hlast; lia.
        -- left. exists j. replace (S i + j) with (i + S j) by lia.
           split; [done |]. split; [done |]. intros j' Hlt Hlen.
           replace (S i + j') with (i + S j') by lia. apply Hlast; lia.
      * right. split.
        -- rewrite lookup_insert_ne; [done |]. intros ->.
           apply (Hnone 0); [lia |]. by rewrite Nat.add_0_r.
        -- intros j Hj. replace (S i + j) with (i + S j) by lia.
           apply Hnone. lia.
Qed.

(** X1: [recordOf] panics (index out of range) exactly when the row has more
    fields than the header, and never ends through [log.Fatalf]; a row that
    is not longer than the header always gives a record. *)
Theorem recordOf_panics_iff_row_longer (headers row : list string) :
  (recordOf headers row = Panic ↔ length headers < length row) ∧
  ((∃ r, recordOf headers row = Ok r) ↔ length row ≤ length headers) ∧
  (∀ msg, recordOf headers row ≠ Fatal msg).
Proof.
  unfold recordOf.
  destruct (decide (length row ≤ length headers)) as [Hle | Hgt].
  - destruct (recordOf_loop_Ok headers row 0 ∅ Hle) as [r Hr]. rewrite Hr.
    split; [split; [done | lia] |]. split; [split; [done | eauto] | done].
  - rewrite recordOf_loop_panic by lia.
    split; [split; [lia | done] |]. split; [| done].
    split; [by intros [r Hr] | lia].
Qed.

(** X2: in the record of a row, a column name maps to the field at the last
    position (within the row) whose header is that name; names of header
    positions beyond the end of a short row, and names not in the header,
    are missing from the record. *)
Theorem recordOf_last_field_wins (headers row : list string) (r : Record)
    (c v : string) :
  recordOf headers row = Ok r →
  r !! c = Some v ↔
    ∃ j, headers !! j = Some c ∧ row !! j = Some v ∧
         ∀ j', j < j' → j' < length row → headers !! j' ≠ Some c.
Proof.
  intros Hrec. unfold recordOf in Hrec.
  rewrite (recordOf_loop_lookup _ _ _ _ _ c v Hrec). simpl. split.
  - intros [Hj | [Hempty _]]; [done | by rewrite lookup_empty in Hempty].
  - intros Hj. by left.
Qed.

Lemma recordOf_last_field_wins_witness :
  (<["a" := "2"]> (<["b" := "x"]> ∅) : Record) !! "a" = Some "2".
Proof.
  apply (recordOf_last_field_wins ["a"; "b"; "a"; "c"] ["1"; "x"; "2"]);
    [reflexivity |].
  exists 2. split; [reflexivity |]. split; [reflexivity |].
  intros j' Hlt Hlen. simpl in Hlen. lia.
Defined.

(** With a header that repeats no name, each name reads the field at its
    position, and is missing when the row ends before it. *)
Lemma recordOf_lookup_NoDup (headers row : list string) (r : Record)
    (j : nat) (c : string) :
  NoDup headers → recordOf headers row = Ok r → headers !! j = Some c →
  r !! c = row !! j.
Proof.
  intros Hnd Hrec Hc. unfold recordOf in Hrec.
  destruct (row !! j) as [v|] eqn:Hv.
  - apply (recordOf_loop_lookup _ _ _ _ _ c v Hrec). left. exists j.
    split; [done |]. split; [done |]. intros j' Hlt _ Hc'. simpl in Hc'.
    pose proof (NoDup_lookup _ _ _ _ Hnd Hc Hc'). lia.
  - destruct (r !! c) as [v|] eqn:Hr; [| done].
    apply (recordOf_loop_lookup _ _ _ _ _ c v Hrec) in Hr.
    destruct Hr as [(j0 & Hc0 & Hv0 & _) | [Hempty _]];
      [| by rewrite lookup_empty in Hempty].
    simpl in Hc0. pose proof (NoDup_lookup _ _ _ _ Hnd Hc Hc0) as ->.
    congruence.
Qed.

Lemma first_value_singleton (col : string) (r : Record) :
  first_value col [r] = r !! col.
Proof. simpl. by destruct (r !! col). Qed.

Lemma prt_row_singleton (outputColumns : list string) (r : Record) :
  prt_row outputColumns [r] = rec_index r <$> outputColumns.
Proof.
  rewrite prt_row_cells. apply list_fmap_ext. intros i col _.
  by rewrite first_value_singleton.
Qed.

(** X3: a round trip.  With a header that repeats no name, the record of a
    row that is not longer than the header, projected on the header itself,
    gives the row back, padded with empty strings up to the width of the
    header. *)
Theorem prt_row_recordOf_round_trip (headers row : list string) :
  NoDup headers → length row ≤ length headers →
  ∃ r, recordOf headers row = Ok r ∧
       prt_row headers [r]
         = row ++ replicate (length headers - length row) "".
Proof.
  intros Hnd Hlen.
  destruct (recordOf_loop_Ok headers row 0 ∅ Hlen) as [r Hr].
  exists r. split; [done |].
  rewrite prt_row_singleton. apply list_eq. intros j.
  rewrite list_lookup_fmap.
  destruct (headers !! j) as [c|] eqn:Hc; simpl.
  - unfold rec_index. rewrite (recordOf_lookup_NoDup _ _ _ _ _ Hnd Hr Hc).
    apply lookup_lt_Some in Hc.
    destruct (decide (j < length row)) as [Hj | Hj].
    + rewrite lookup_app_l by done.
      destruct (lookup_lt_is_Some_2 row j Hj) as [v Hv]. by rewrite Hv.
    + rewrite lookup_app_r by lia. rewrite lookup_ge_None_2 by lia. simpl.
      symmetry. apply lookup_replicate. split; [done | lia].
  - apply lookup_ge_None in Hc. symmetry. apply lookup_ge_None.
    rewrite length_app, length_replicate. lia.
Qed.

Lemma prt_row_recordOf_round_trip_witness :
  ∃ r, recordOf ["id"; "name"; "age"] ["7"; "eve"] = Ok r ∧
       prt_row ["id"; "name"; "age"] [r] = ["7"; "eve"; ""].
Proof.
  apply (prt_row_recordOf_round_trip ["id"; "name"; "age"] ["7"; "eve"]).
  - apply (bool_decide_unpack (NoDup ["id"; "name"; "age"])). vm_compute. exact I.
  - simpl. lia.
Defined.

(** ** Loading a source: [ReadData] *)

Lemma ReadData_loop_fitting_prefix (before rest : Reader)
    (headers joinColumns : list string) (dc : DataCollection) :
  Forall (row_fits headers) before →
  ∃ dc', ReadData_loop (before ++ rest) headers joinColumns dc
         = ReadData_loop rest headers joinColumns dc'.
Proof.
  intros Hfit. revert dc.
  induction Hfit as [|res before (row & -> & Hlen) _ IH]; intros dc; simpl;
    [eauto |].
  destruct (recordOf_loop_Ok headers row 0 ∅ Hlen) as [r Hr].
  unfold recordOf. rewrite Hr. simpl. apply IH.
Qed.

Lemma ReadData_loop_Ok_fits (reader : Reader) (headers joinColumns : list string)
    (dc dc' : DataCollection) :
  ReadData_loop reader headers joinColumns dc = Ok dc' →
  Forall (row_fits headers) reader.
Proof.
  revert dc. induction reader as [|res reader IH]; intros dc; simpl;
    [constructor |].
  destruct res as [row | row]; [| done].
  destruct (recordOf headers row) as [r | |] eqn:Hr; simpl; [| done | done].
  intros Hloop. constructor; [| by eapply IH].
  exists row. split; [done |].
  destruct (decide (length row ≤ length headers)) as [| Hgt]; [done |].
  unfold recordOf in Hr. rewrite recordOf_loop_panic in Hr by lia. done.
Qed.

(** X4: how [ReadData] ends.  It returns a collection exactly when every
    read result is a row, without error, that is not longer than the header.
    Otherwise the first result that is not decides: an error is fatal, a row
    longer than the header panics. *)
Theorem ReadData_outcome (reader : Reader) (headers joinColumns : list string) :
  ((∃ dc, ReadData reader headers joinColumns = Ok dc)
     ↔ Forall (row_fits headers) reader) ∧
  (∀ before row after,
     reader = before ++ RErr row :: after → Forall (row_fits headers) before →
     ReadData reader headers joinColumns
       = Fatal "failed to read/parse CSV input") ∧
  (∀ before row after,
     reader = before ++ RRow row :: after → Forall (row_fits headers) before →
     length headers < length row →
     ReadData reader headers joinColumns = Panic).
Proof.
  unfold ReadData. split; [| split].
  - split.
    + intros [dc Hdc]. by eapply ReadData_loop_Ok_fits.
    + intros Hfit.
      destruct (ReadData_loop_fitting_prefix reader [] headers joinColumns
                  NewDataCollection Hfit) as [dc' Hdc'].
      rewrite app_nil_r in Hdc'. exists dc'. by rewrite Hdc'.
  - intros before row after -> Hfit.
    destruct (ReadData_loop_fitting_prefix before (RErr row :: after) headers
                joinColumns NewDataCollection Hfit) as [dc' ->]. done.
  - intros before row after -> Hfit Hlong.
    destruct (ReadData_loop_fitting_prefix before (RRow row :: after) headers
                joinColumns NewDataCollection Hfit) as [dc' ->]. simpl.
    unfold recordOf. by rewrite recordOf_loop_panic by lia.
Qed.

Lemma ReadData_outcome_witness :
  ReadData [RRow ["1"; "a"]; RErr ["2"]; RRow ["3"; "c"]] ["id"; "name"] ["id"]
    = Fatal "failed to read/parse CSV input" ∧
  ReadData [RRow ["1"; "a"]; RRow ["2"; "b"; "extra"]] ["id"; "name"] ["id"]
    = Panic.
Proof.
  destruct (ReadData_outcome [RRow ["1"; "a"]; RErr ["2"]; RRow ["3"; "c"]]
              ["id"; "name"] ["id"]) as (_ & Hfatal & _).
  destruct (ReadData_outcome [RRow ["1"; "a"]; RRow ["2"; "b"; "extra"]]
              ["id"; "name"] ["id"]) as (_ & _ & Hpanic).
  split.
  - apply (Hfatal [RRow ["1"; "a"]] ["2"] [RRow ["3"; "c"]]); [reflexivity |].
    constructor; [| constructor]. exists ["1"; "a"]. split; [reflexivity | simpl; lia].
  - apply (Hpanic [RRow ["1"; "a"]] ["2"; "b"; "extra"] []); [reflexivity | | simpl; lia].
    constructor; [| constructor]. exists ["1"; "a"]. split; [reflexivity | simpl; lia].
Defined.

Lemma Add_nonempty (dc : DataCollection) (key : string) (rec : Record) :
  (∀ k l, data dc !! k = Some l → l ≠ []) →
  ∀ k l, data (Add dc key rec) !! k = Some l → l ≠ [].
Proof.
  intros Hinv k l. unfold Add. simpl.
  destruct (decide (key = k)) as [-> | Hne].
  - rewrite lookup_insert_eq. intros [= <-]. by destruct (data_index dc k).
  - rewrite lookup_insert_ne by done. apply Hinv.
Qed.

Lemma ReadData_loop_nonempty (reader : Reader) (headers joinColumns : list string)
    (dc dc' : DataCollection) :
  ReadData_loop reader headers joinColumns dc = Ok dc' →
  (∀ k l, data dc !! k = Some l → l ≠ []) →
  ∀ k l, data dc' !! k = Some l → l ≠ [].
Proof.
  revert dc. induction reader as [|res reader IH]; intros dc; simpl.
  - by intros [= <-].
  - destruct res as [row | row]; [| done].
    destruct (recordOf headers row) as [r | |]; simpl; [| done | done].
    intros Hloop Hinv. eapply IH; [done |]. by apply Add_nonempty.
Qed.

(** X5: the collection [ReadData] returns holds a key exactly when some row
    of the source has that key, and never holds a key with an empty list:
    the records stored under a key are at least one and all have that
    key. *)
Theorem ReadData_keys_have_records (reader : Reader)
    (headers joinColumns : list string) (dc : DataCollection) :
  ReadData reader headers joinColumns = Ok dc →
  (∀ k l, data dc !! k = Some l →
     l ≠ [] ∧ Forall (λ rec, keyOf joinColumns rec = k) l) ∧
  (∀ k, is_Some (data dc !! k) ↔
     ∃ row rec, RRow row ∈ reader ∧ recordOf headers row = Ok rec ∧
                keyOf joinColumns rec = k).
Proof.
  intros Hread.
  destruct (ReadData_row_order _ _ _ _ Hread) as (recs & Hall & Hidx).
  assert (∀ k l, data dc !! k = Some l → l ≠ []) as Hne.
  { eapply ReadData_loop_nonempty; [exact Hread |].
    intros k l. unfold NewDataCollection. simpl. by rewrite lookup_empty. }
  assert (∀ k l, data dc !! k = Some l →
            l = filter (λ rec, keyOf joinColumns rec = k) recs) as Hfilter.
  { intros k l Hl. rewrite <- Hidx. unfold data_index. by rewrite Hl. }
  split.
  - intros k l Hl. split; [by eapply Hne |].
    rewrite (Hfilter k l Hl). apply Forall_forall.
    intros rec Hrec. by apply list_elem_of_filter in Hrec as [? _].
  - intros k. split.
    + intros [l Hl]. pose proof (Hne k l Hl) as Hnil.
      rewrite (Hfilter k l Hl) in Hnil.
      destruct (filter (λ rec, keyOf joinColumns rec = k) recs) as [|rec l']
        eqn:Hf; [done |].
      assert (rec ∈ filter (λ rec, keyOf joinColumns rec = k) recs) as Hin
        by (rewrite Hf; left).
      apply list_elem_of_filter in Hin as [Hkey Hin].
      apply list_elem_of_lookup_1 in Hin as [i Hi].
      destruct (Forall2_lookup_r _ _ _ _ _ Hall Hi) as (res & Hres & row & -> & Hrec).
      exists row, rec. split; [by eapply list_elem_of_lookup_2 | done].
    + intros (row & rec & Hin & Hrec & Hkey).
      apply list_elem_of_lookup_1 in Hin as [i Hi].
      destruct (Forall2_lookup_l _ _ _ _ _ Hall Hi)
        as (rec' & Hi' & row' & [= <-] & Hrec').
      assert (rec' = rec) as -> by congruence.
      assert (rec ∈ data_index dc k) as Hstored.
      { rewrite Hidx. apply list_elem_of_filter. split; [done |].
        by eapply list_elem_of_lookup_2. }
      unfold data_index in Hstored.
      destruct (data dc !! k) as [l|]; [eauto |].
      by apply elem_of_nil in Hstored.
Qed.

Lemma ReadData_keys_have_records_witness :
  ∃ dc, ReadData [RRow ["1"; "a"]; RRow ["2"; "b"]; RRow ["1"; "c"]]
          ["id"; "name"] ["id"] = Ok dc ∧
        is_Some (data dc !! "2") ∧ data dc !! "3" = None.
Proof.
  eexists. split; [reflexivity |].
  destruct (ReadData_keys_have_records
              [RRow ["1"; "a"]; RRow ["2"; "b"]; RRow ["1"; "c"]]
              ["id"; "name"] ["id"] _ eq_refl) as [_ Hkeys].
  split; [| vm_compute; reflexivity].
  apply Hkeys. exists ["2"; "b"]. eexists. split; [right; left |].
  split; reflexivity.
Defined.

(** ** Opening the files and reading the headers *)

(** X6: [OpenReaders] returns the readers of the named files, in order,
    exactly when every name can be opened; otherwise the run stops with the
    first name that cannot. *)
Theorem OpenReaders_outcome (fs : gmap string Reader) (fileNames : list string) :
  (∀ readers, OpenReaders fs fileNames = Ok readers ↔
     Forall2 (λ fName r, fs !! fName = Some r) fileNames readers) ∧
  (∀ before fName after,
     fileNames = before ++ fName :: after →
     Forall (λ n, is_Some (fs !! n)) before → fs !! fName = None →
     OpenReaders fs fileNames = Fatal ("cannot read CSV file " +:+ fName)).
Proof.
  split.
  - induction fileNames as [|n rest IH]; intros readers; simpl.
    + split; [intros [= <-]; constructor | by intros ->%Forall2_nil_inv_l].
    + destruct (fs !! n) as [r|] eqn:Hn.
      * destruct (OpenReaders fs rest) as [readers' | |] eqn:Hrest; simpl.
        -- split.
           ++ intros [= <-]. constructor; [done | by apply IH].
           ++ intros (r' & rs' & Hr' & Hrs' & ->)%Forall2_cons_inv_l.
              apply IH in Hrs'. congruence.
        -- split; [done |].
           intros (r' & rs' & _ & Hrs' & _)%Forall2_cons_inv_l.
           by apply IH in Hrs'.
        -- split; [done |].
           intros (r' & rs' & _ & Hrs' & _)%Forall2_cons_inv_l.
           by apply IH in Hrs'.
      * split; [done |].
        intros (r' & rs' & Hr' & _)%Forall2_cons_inv_l. congruence.
  - intros before fName after -> Hbefore Hmissing.
    induction Hbefore as [|n before [r Hr] _ IH]; simpl.
    + by rewrite Hmissing.
    + by rewrite Hr, IH.
Qed.

Lemma OpenReaders_outcome_witness :
  OpenReaders {["a.csv" := [RRow ["id"]]]} ["a.csv"; "b.csv"; "c.csv"]
    = Fatal "cannot read CSV file b.csv".
Proof.
  destruct (OpenReaders_outcome {["a.csv" := [RRow ["id"]]]}
              ["a.csv"; "b.csv"; "c.csv"]) as [_ Hfatal].
  apply (Hfatal ["a.csv"] "b.csv" ["c.csv"]); [reflexivity | | reflexivity].
  constructor; [| constructor]. eexists. reflexivity.
Defined.

Lemma GatherAllHeaders_loop_Ok (readers : list Reader) (fileNames : list string)
    (i : nat) :
  Forall (λ r, r ≠ []) readers →
  GatherAllHeaders_loop i readers fileNames
    = Ok (first_record <$> readers, tail <$> readers).
Proof.
  intros Hne. revert i.
  induction Hne as [|r readers Hr _ IH]; intros i; simpl; [done |].
  destruct r as [|res r']; [done |]. by rewrite IH.
Qed.

Lemma GatherAllHeaders_loop_Ok_inv (readers : list Reader)
    (fileNames : list string) (i : nat) (hr : list (list string) * list Reader) :
  GatherAllHeaders_loop i readers fileNames = Ok hr →
  Forall (λ r, r ≠ []) readers.
Proof.
  revert i hr. induction readers as [|r readers IH]; intros i hr; simpl;
    [constructor |].
  destruct r as [|res r'].
  - by destruct (fileNames !! i).
  - destruct (GatherAllHeaders_loop (S i) readers fileNames) as [hr' | |] eqn:Hrest;
      simpl; [| done | done].
    intros _. constructor; [done | by eapply IH].
Qed.

Lemma GatherAllHeaders_loop_no_name (before after : list Reader)
    (fileNames : list string) (i : nat) :
  Forall (λ r, r ≠ []) before →
  fileNames !! (i + length before) = None →
  GatherAllHeaders_loop i (before ++ [] :: after) fileNames = Panic.
Proof.
  intros Hbefore. revert i.
  induction Hbefore as [|r before Hr _ IH]; intros i Hname; simpl.
  - rewrite Nat.add_0_r in Hname. by rewrite Hname.
  - destruct r as [|res r']; [done |].
    rewrite IH; [done |]. rewrite <- Hname. f_equal. simpl. lia.
Qed.

(** X7: [GatherAllHeaders] succeeds exactly when every reader returns a
    first result; the headers are then the records of those results,
    whether or not they came with an error, and the readers are left just
    past them.  Otherwise the run stops at the first reader that is at its
    end, naming its file (and panics when no file name is left for it). *)
Theorem GatherAllHeaders_outcome (readers : list Reader) (fileNames : list string) :
  (∀ hr, GatherAllHeaders readers fileNames = Ok hr ↔
     Forall (λ r, r ≠ []) readers ∧
     hr = (first_record <$> readers, tail <$> readers)) ∧
  (∀ before after,
     readers = before ++ [] :: after → Forall (λ r, r ≠ []) before →
     GatherAllHeaders readers fileNames =
       match fileNames !! length before with
       | Some fName =>
           Fatal ("CSV file " +:+ fName +:+ " has no headers. cannot process.")
       | None => Panic
       end).
Proof.
  unfold GatherAllHeaders. split.
  - intros hr. split.
    + intros Hok. pose proof (GatherAllHeaders_loop_Ok_inv _ _ _ _ Hok) as Hne.
      split; [done |]. rewrite GatherAllHeaders_loop_Ok in Hok by done.
      by injection Hok.
    + intros [Hne ->]. by apply GatherAllHeaders_loop_Ok.
  - intros before after -> Hbefore.
    destruct (fileNames !! length before) as [fName|] eqn:Hname.
    + by apply GatherAllHeaders_loop_missing_header.
    + by apply GatherAllHeaders_loop_no_name.
Qed.

Lemma GatherAllHeaders_outcome_witness :
  GatherAllHeaders [[RRow ["id"; "name"]; RRow ["1"; "a"]]; []; [RRow ["id"]]]
    ["a.csv"; "b.csv"; "c.csv"]
  = Fatal "CSV file b.csv has no headers. cannot process.".
Proof.
  destruct (GatherAllHeaders_outcome
              [[RRow ["id"; "name"]; RRow ["1"; "a"]]; []; [RRow ["id"]]]
              ["a.csv"; "b.csv"; "c.csv"]) as [_ Hstop].
  apply (Hstop [[RRow ["id"; "name"]; RRow ["1"; "a"]]] [[RRow ["id"]]]);
    [reflexivity |].
  constructor; [done | constructor].
Defined.

(** ** Fatal input errors of a run *)

Lemma main_missing_header_fatal_witness :
  ∃ fName,
    @main canonical_range
      {["a.csv" := [RRow ["id"]; RRow ["1"]]; "b.csv" := []]} ["a.csv"; "b.csv"]
    = ([], Fatal ("CSV file " +:+ fName +:+ " has no headers. cannot process.")).
Proof.
  apply (@main_missing_header_fatal canonical_range
           {["a.csv" := [RRow ["id"]; RRow ["1"]]; "b.csv" := []]}
           ["a.csv"; "b.csv"] [[RRow ["id"]; RRow ["1"]]; []] 1);
    reflexivity.
Defined.

Lemma main_data_error_fatal_witness :
  (@main canonical_range
     {["a.csv" := [RRow ["id"]; RRow ["1"]; RErr []; RRow ["2"]];
       "b.csv" := [RRow ["id"]]]} ["a.csv"; "b.csv"]).1 = [] ∧
  (@main canonical_range
     {["a.csv" := [RRow ["id"]; RRow ["1"]; RErr []; RRow ["2"]];
       "b.csv" := [RRow ["id"]]]} ["a.csv"; "b.csv"]).2 ≠ Ok ().
Proof.
  apply (@main_data_error_fatal canonical_range
           {["a.csv" := [RRow ["id"]; RRow ["1"]; RErr []; RRow ["2"]];
             "b.csv" := [RRow ["id"]]]}
           ["a.csv"; "b.csv"] ["a.csv"; "b.csv"]
           [[RRow ["id"]; RRow ["1"]; RErr []; RRow ["2"]]; [RRow ["id"]]]
           ([["id"]; ["id"]], [[RRow ["1"]; RErr []; RRow ["2"]]; []])
           ["id"] 0 [RRow ["1"]] [RRow ["2"]] []);
    reflexivity.
Defined.

(** ** Join columns and output columns *)

Lemma IdentifyJoinColumns_common_columns_witness :
  ("id" ∈ ["id"] ↔ common_column [["id"; "name"]; ["id"; "age"]] "id") ∧
  ("name" ∈ ["id"] ↔ common_column [["id"; "name"]; ["id"; "age"]] "name").
Proof.
  assert (Forall NoDup [["id"; "name"]; ["id"; "age"]]) as Hnd.
  { constructor; [| constructor; [| constructor]].
    - apply (bool_decide_unpack (NoDup ["id"; "name"])). vm_compute. exact I.
    - apply (bool_decide_unpack (NoDup ["id"; "age"])). vm_compute. exact I. }
  destruct (@IdentifyJoinColumns_common_columns canonical_range
              [["id"; "name"]; ["id"; "age"]] Hnd ltac:(discriminate))
    as [Hok _].
  split; apply (Hok ["id"]); vm_compute; reflexivity.
Defined.

Lemma occurrences_pos_elem_of (c : string) (l : list string) :
  0 < occurrences c l → c ∈ l.
Proof.
  intros Hpos. destruct (decide (c ∈ l)) as [| Hnin]; [done |].
  rewrite occurrences_not_elem_of in Hpos by done. lia.
Qed.

(** X11: two runs on the same headers, whatever the orders they visit the
    map in, both stop or both return join columns; the columns returned are
    the same up to their order, repeat no name and are at least one. *)
Theorem IdentifyJoinColumns_any_order (R1 R2 : MapRange)
    (allHeaders : list (list string)) :
  (@IdentifyJoinColumns R1 allHeaders =
     Fatal "cannot identify columns common to all input files to join" ↔
   @IdentifyJoinColumns R2 allHeaders =
     Fatal "cannot identify columns common to all input files to join") ∧
  (∀ joinColumns1, @IdentifyJoinColumns R1 allHeaders = Ok joinColumns1 →
     ∃ joinColumns2,
       @IdentifyJoinColumns R2 allHeaders = Ok joinColumns2 ∧
       joinColumns1 ≡ₚ joinColumns2 ∧ NoDup joinColumns1 ∧ joinColumns1 ≠ []).
Proof.
  destruct (@IdentifyJoinColumns_total_occurrences R1 allHeaders)
    as (_ & Hnd1 & Hres1).
  destruct (@IdentifyJoinColumns_total_occurrences R2 allHeaders)
    as (_ & _ & Hres2).
  set (s1 := select_join (length allHeaders)
                (@range R1 _ 0 (headerCounts allHeaders))) in *.
  set (s2 := select_join (length allHeaders)
                (@range R2 _ 0 (headerCounts allHeaders))) in *.
  assert (s1 ≡ₚ s2) as Hperm by (unfold s1, s2; by rewrite !range_perm).
  assert (s1 = [] ↔ s2 = []) as Hnil.
  { split; intros Hs; rewrite Hs in Hperm.
    - symmetry. by apply Permutation_nil_l.
    - by apply Permutation_nil_r. }
  rewrite Hres1, Hres2.
  destruct (decide (s1 = [])) as [Hs1 | Hs1];
    destruct (decide (s2 = [])) as [Hs2 | Hs2]; try tauto.
  - split; [done |]. by intros joinColumns1.
  - split; [done |]. intros joinColumns1 [= <-].
    exists s2. split; [done |]. split; [done |]. split; done.
Qed.

Lemma IdentifyJoinColumns_any_order_witness :
  ∃ joinColumns2,
    @IdentifyJoinColumns reversed_range [["a"; "b"]; ["b"; "a"; "c"]]
      = Ok joinColumns2 ∧
    ["a"; "b"] ≡ₚ joinColumns2.
Proof.
  destruct (IdentifyJoinColumns_any_order canonical_range reversed_range
              [["a"; "b"]; ["b"; "a"; "c"]]) as [_ Hok].
  destruct (Hok ["a"; "b"] ltac:(vm_compute; reflexivity))
    as (joinColumns2 & H2 & Hperm & _).
  exists joinColumns2. split; [exact H2 | exact Hperm].
Defined.

(** X12: every join column is an output column: a name [IdentifyJoinColumns]
    returns occurs in some header, and so is in the list
    [IdentifyOutputColumns] returns for the same headers. *)
Theorem join_columns_are_output_columns `{MapRange}
    (allHeaders : list (list string)) (joinColumns : list string) (c : string) :
  IdentifyJoinColumns allHeaders = Ok joinColumns → c ∈ joinColumns →
  c ∈ IdentifyOutputColumns allHeaders ∧
  ∃ header, header ∈ allHeaders ∧ c ∈ header.
Proof.
  intros Hjoin Hc.
  destruct (IdentifyJoinColumns_total_occurrences allHeaders)
    as (Hmem & _ & Hres).
  rewrite Hres in Hjoin. case_decide; [done |]. injection Hjoin as <-.
  apply Hmem in Hc as [Hocc Hne].
  assert (c ∈ concat allHeaders) as Hin.
  { apply occurrences_pos_elem_of. rewrite Hocc.
    destruct allHeaders; [done | simpl; lia]. }
  split.
  - rewrite IdentifyOutputColumns_unique_names. by apply unique_names_elem_of.
  - by apply elem_of_concat.
Qed.

Lemma join_columns_are_output_columns_witness :
  "id" ∈ IdentifyOutputColumns [["id"; "name"]; ["age"; "id"]] ∧
  ∃ header, header ∈ [["id"; "name"]; ["age"; "id"]] ∧ "id" ∈ header.
Proof.
  apply (@join_columns_are_output_columns canonical_range
           [["id"; "name"]; ["age"; "id"]] ["id"] "id").
  - vm_compute. reflexivity.
  - left.
Defined.

Lemma foldl_Append_prefix (all : list string) (u : UniqueSlice) :
  slice u `prefix_of` slice (foldl Append u all).
Proof.
  revert u. induction all as [|s all IH]; intros u; simpl; [done |].
  etrans; [| apply IH]. unfold Append.
  destruct (Append_scan (slice u) s); simpl; [done |].
  by apply prefix_app_r.
Qed.

Lemma unique_names_NoDup_id (header : list string) :
  NoDup header → unique_names header = header.
Proof.
  induction header as [|c header IH] using rev_ind; intros Hnd; [done |].
  apply NoDup_app in Hnd as (Hnd & Hc & _).
  rewrite unique_names_snoc, IH by done.
  rewrite decide_False; [done |].
  intros Hin. apply (Hc c Hin). left.
Qed.

(** X13: the output columns are first come, first placed: the output
    columns of the first sources are a prefix of the output columns of all
    the sources (later sources only add columns at the end), and a first
    header that repeats no name is itself that prefix. *)
Theorem IdentifyOutputColumns_prefix (header : list string)
    (first later : list (list string)) :
  IdentifyOutputColumns first `prefix_of` IdentifyOutputColumns (first ++ later) ∧
  (NoDup header → header `prefix_of` IdentifyOutputColumns (header :: later)).
Proof.
  assert (∀ hs1 hs2, IdentifyOutputColumns hs1
                       `prefix_of` IdentifyOutputColumns (hs1 ++ hs2)) as Hmono.
  { intros hs1 hs2. rewrite !IdentifyOutputColumns_unique_names.
    unfold unique_names, GetSlice. rewrite concat_app, foldl_app.
    apply foldl_Append_prefix. }
  split; [apply Hmono |].
  intros Hnd. specialize (Hmono [header] later).
  rewrite IdentifyOutputColumns_unique_names in Hmono. simpl in Hmono.
  rewrite app_nil_r, unique_names_NoDup_id in Hmono by done. done.
Qed.

Lemma IdentifyOutputColumns_prefix_witness :
  ["id"; "name"] `prefix_of`
    IdentifyOutputColumns [["id"; "name"]; ["age"; "id"]; ["name"; "city"]].
Proof.
  apply (IdentifyOutputColumns_prefix ["id"; "name"] []
           [["age"; "id"]; ["name"; "city"]]).
  apply (bool_decide_unpack (NoDup ["id"; "name"])). vm_compute. exact I.
Defined.

(** ** The combinations of a key *)

Lemma combinations_nil_nested_loops (key : string) (allData : list DataCollection) :
  combinations key [] allData = nested_loops (slots key <$> allData).
Proof.
  rewrite combinations_nested_loops. apply list_fmap_id.
Qed.

Lemma nested_loops_cons_elem_of (first : list (list Record))
    (later : list (list (list Record))) (c : list Record) :
  c ∈ nested_loops (first :: later) ↔
    ∃ c0 rest, c = c0 ++ rest ∧ c0 ∈ first ∧ rest ∈ nested_loops later.
Proof.
  simpl. rewrite list_elem_of_bind. split.
  - intros (c0 & Hc & Hc0). rewrite list_bind_singleton in Hc.
    apply list_elem_of_fmap in Hc as (rest & -> & Hrest). eauto.
  - intros (c0 & rest & -> & Hc0 & Hrest). exists c0. split; [| done].
    rewrite list_bind_singleton. by apply list_elem_of_fmap_2.
Qed.

Lemma slots_elem_of (key : string) (dc : DataCollection) (c0 : list Record) :
  c0 ∈ slots key dc ↔
    (data_index dc key = [] ∧ c0 = []) ∨
    (∃ rec, rec ∈ data_index dc key ∧ c0 = [rec]).
Proof.
  unfold slots. destruct (data_index dc key) as [|rec0 recs] eqn:Hidx.
  - rewrite list_elem_of_singleton. split.
    + intros ->. by left.
    + intros [[_ ->] | (rec & Hrec & _)]; [done | by apply elem_of_nil in Hrec].
  - rewrite list_elem_of_fmap. split.
    + intros (rec & -> & Hrec). right. eauto.
    + intros [[? _] | (rec & Hrec & ->)]; [done | eauto].
Qed.

Lemma nested_loops_structure (key : string) (allData : list DataCollection)
    (c : list Record) :
  c ∈ nested_loops (slots key <$> allData) →
  Forall2 (λ rec dc, rec ∈ data_index dc key) c
    (filter (λ dc, data_index dc key ≠ []) allData).
Proof.
  revert c. induction allData as [|dc rest IH]; intros c.
  - simpl. intros ->%list_elem_of_singleton. constructor.
  - rewrite fmap_cons, nested_loops_cons_elem_of, filter_cons.
    intros (c0 & tl & -> & Hc0 & Htl).
    apply slots_elem_of in Hc0 as [[Hnil ->] | (rec & Hrec & ->)].
    + rewrite decide_False by (intros Hne; by apply Hne). by apply IH.
    + rewrite decide_True by (intros Hnil; rewrite Hnil in Hrec;
                               by apply elem_of_nil in Hrec).
      constructor; [done | by apply IH].
Qed.

(** X14: every combination handed to the printer for a key holds exactly one
    record from each source that has records for the key, in source order,
    and nothing from the sources that have none. *)
Theorem combinations_one_record_per_source (key : string)
    (allData : list DataCollection) (c : list Record) :
  c ∈ combinations key [] allData →
  Forall2 (λ rec dc, rec ∈ data_index dc key) c
    (filter (λ dc, data_index dc key ≠ []) allData).
Proof.
  rewrite combinations_nil_nested_loops. apply nested_loops_structure.
Qed.

Lemma combinations_one_record_per_source_witness :
  Forall2 (λ rec dc, rec ∈ data_index dc "1")
    [({["x" := "a2"]} : Record); {["y" := "c1"]}]
    (filter (λ dc, data_index dc "1" ≠ [])
       [mkDataCollection {["1" := [{["x" := "a1"]}; {["x" := "a2"]}]]};
        mkDataCollection ∅;
        mkDataCollection {["1" := [{["y" := "c1"]}]]}]).
Proof.
  apply (combinations_one_record_per_source "1").
  vm_compute. right. left.
Defined.

Lemma nested_loops_inhabited (key : string) (allData : list DataCollection) :
  ∃ c, c ∈ nested_loops (slots key <$> allData).
Proof.
  destruct (nested_loops (slots key <$> allData)) as [|c l] eqn:Hnl.
  - pose proof (length_nested_loops key allData) as Hlen.
    pose proof (row_count_pos key allData). rewrite Hnl in Hlen.
    simpl in Hlen. lia.
  - exists c. left.
Qed.

(** X15: no record is lost: every record a source holds for a key is in
    at least one of the combinations handed to the printer for that key. *)
Theorem combinations_cover_records (key : string)
    (allData : list DataCollection) (dc : DataCollection) (rec : Record) :
  dc ∈ allData → rec ∈ data_index dc key →
  ∃ c, c ∈ combinations key [] allData ∧ rec ∈ c.
Proof.
  rewrite combinations_nil_nested_loops. intros Hdc Hrec.
  induction allData as [|dc0 rest IH]; [by apply elem_of_nil in Hdc |].
  apply elem_of_cons in Hdc as [<- | Hdc].
  - destruct (nested_loops_inhabited key rest) as [tl Htl].
    exists ([rec] ++ tl). split; [| left].
    rewrite fmap_cons. apply nested_loops_cons_elem_of.
    exists [rec], tl. split; [done |]. split; [| done].
    apply slots_elem_of. right. eauto.
  - destruct (IH Hdc) as (tl & Htl & Hin).
    assert (∃ c0, c0 ∈ slots key dc0) as [c0 Hc0].
    { destruct (data_index dc0 key) as [|rec0 recs] eqn:Hidx.
      - exists []. apply slots_elem_of. by left.
      - exists [rec0]. apply slots_elem_of. right. exists rec0.
        split; [rewrite Hidx; left | done]. }
    exists (c0 ++ tl). split; [| apply elem_of_app; by right].
    rewrite fmap_cons. apply nested_loops_cons_elem_of. eauto.
Qed.

Lemma combinations_cover_records_witness :
  ∃ c, c ∈ combinations "1" []
             [mkDataCollection {["1" := [{["x" := "a1"]}; {["x" := "a2"]}]]};
              mkDataCollection ∅;
              mkDataCollection {["1" := [{["y" := "c1"]}]]}] ∧
       ({["x" := "a2"]} : Record) ∈ c.
Proof.
  apply (combinations_cover_records "1" _
           (mkDataCollection {["1" := [{["x" := "a1"]}; {["x" := "a2"]}]]})).
  - left.
  - vm_compute. right. left.
Defined.

Lemma nested_loops_all_absent (key : string) (allData : list DataCollection) :
  Forall (λ dc, data_index dc key = []) allData →
  nested_loops (slots key <$> allData) = [[]].
Proof.
  induction 1 as [|dc rest Hnil _ IH]; [done |].
  rewrite fmap_cons, (slots_nil _ _ Hnil).
  change ([[]] :: (slots key <$> rest)) with ([] ++ [[]] :: (slots key <$> rest)).
  by rewrite nested_loops_absent.
Qed.

(** X20: for a key that no source holds a record for, [WriteCSVs] still
    writes one row: the empty combination, with an empty string in every
    output column. *)
Theorem WriteCSVs_missing_key_blank_row (key : string)
    (outputColumns : list string) (allData : list DataCollection)
    (out : list (list string)) :
  Forall (λ dc, data_index dc key = []) allData →
  WriteCSVs key outputColumns allData out
    = out ++ [replicate (length outputColumns) ""].
Proof.
  intros Hnone. rewrite WriteCSVs_rows, nested_loops_all_absent by done.
  simpl. do 2 f_equal. rewrite prt_row_cells.
  induction outputColumns as [|col cols IH]; [done |].
  rewrite fmap_cons, IH. done.
Qed.

Lemma WriteCSVs_missing_key_blank_row_witness :
  WriteCSVs "9" ["id"; "name"]
    [mkDataCollection {["1" := [{["id" := "1"; "name" := "alice"]}]]};
     mkDataCollection ∅] [["id"; "name"]]
  = [["id"; "name"]; [""; ""]].
Proof.
  apply (WriteCSVs_missing_key_blank_row "9" ["id"; "name"]).
  constructor; [reflexivity |]. constructor; [reflexivity | constructor].
Defined.

(** ** The rows of a run *)

Lemma foldl_WriteCSVs_rows (keys outputColumns : list string)
    (allData : list DataCollection) (out : list (list string)) :
  foldl (λ out' key, WriteCSVs key outputColumns allData out') out keys
    = out ++ (keys ≫= λ key, prt_row outputColumns <$> combinations key [] allData).
Proof.
  revert out. induction keys as [|key keys IH]; intros out.
  - simpl. by rewrite app_nil_r.
  - cbn [foldl]. rewrite IH, bind_cons, WriteCSVs_rows.
    rewrite combinations_nil_nested_loops. by rewrite <- app_assoc.
Qed.

Lemma length_bind_row_count (keys outputColumns : list string)
    (allData : list DataCollection) :
  length (keys ≫= λ key, prt_row outputColumns <$> combinations key [] allData)
    = sum_list ((λ key, row_count key allData) <$> keys).
Proof.
  induction keys as [|key keys IH]; [done |].
  rewrite bind_cons, length_app, IH, length_fmap.
  rewrite combinations_nil_nested_loops, length_nested_loops. done.
Qed.

(** X16: what a run that loads its sources writes: the output columns as
    the first row, then, key after key in the order of the key universe, the
    projections of the key's combinations in their order; in all one row
    more than the sum over the keys of the products [row_count]. *)
Theorem main_rows `{MapRange} (fs : gmap string Reader)
    (args fileNames : list string) (readers : list Reader)
    (hr : list (list string) * list Reader) (joinColumns keys : list string)
    (allData : list DataCollection) :
  GetFileNames args = Ok fileNames →
  OpenReaders fs fileNames = Ok readers →
  GatherAllHeaders readers fileNames = Ok hr →
  IdentifyJoinColumns hr.1 = Ok joinColumns →
  ReadAllInputSources hr.2 hr.1 joinColumns = Ok (keys, allData) →
  main fs args =
    (IdentifyOutputColumns hr.1 ::
       (keys ≫= λ key, prt_row (IdentifyOutputColumns hr.1)
                          <$> combinations key [] allData),
     Ok ()) ∧
  length (main fs args).1
    = 1 + sum_list ((λ key, row_count key allData) <$> keys).
Proof.
  intros Hargs Hopen Hgather Hjoin Hread.
  assert (main fs args =
    (IdentifyOutputColumns hr.1 ::
       (keys ≫= λ key, prt_row (IdentifyOutputColumns hr.1)
                          <$> combinations key [] allData), Ok ())) as Hmain.
  { unfold main, load. rewrite Hargs. simpl. rewrite Hopen. simpl.
    rewrite Hgather. simpl. rewrite Hjoin. simpl. rewrite Hread. simpl.
    by rewrite foldl_WriteCSVs_rows. }
  split; [done |]. rewrite Hmain. simpl. by rewrite length_bind_row_count.
Qed.

Lemma main_rows_witness :
  @main canonical_range scenario1 ["a.csv"; "b.csv"] =
    (["id"; "name"; "age"] ::
       [["1"; "alice"; "30"]; ["1"; "alice"; "31"]; ["2"; "bob"; ""]], Ok ()) ∧
  length (@main canonical_range scenario1 ["a.csv"; "b.csv"]).1 = 4.
Proof.
  destruct (@main_rows canonical_range scenario1 ["a.csv"; "b.csv"]
              ["a.csv"; "b.csv"] _ _ ["id"] _ _
              eq_refl eq_refl eq_refl eq_refl eq_refl) as [Hmain Hlen].
  split; [rewrite Hmain; vm_compute; reflexivity |].
  rewrite Hlen. vm_compute. reflexivity.
Defined.

Lemma NoDup_all_equal_short {A : Type} (l : list A) :
  NoDup l → (∀ x y, x ∈ l → y ∈ l → x = y) → length l ≤ 1.
Proof.
  intros Hnd Heq. destruct l as [|x [|y l]]; simpl; [lia | lia |].
  exfalso. apply NoDup_cons in Hnd as [Hx _]. apply Hx.
  rewrite (Heq x y); [left | left | right; left].
Qed.

(** X17: when at most one column name is counted as often as there are
    files, the run is deterministic: whatever the orders in which two runs
    visit their maps, they write the same rows and end the same way. *)
Theorem main_deterministic_single_join_column (R1 R2 : MapRange)
    (fs : gmap string Reader) (args : list string) :
  (∀ allHeaders, headers_read fs args allHeaders →
     ∀ c1 c2,
       occurrences c1 (concat allHeaders) = length allHeaders →
       occurrences c2 (concat allHeaders) = length allHeaders → c1 = c2) →
  @main R1 fs args = @main R2 fs args.
Proof.
  intros Hone.
  assert (∀ allHeaders, headers_read fs args allHeaders →
            length (select_join (length allHeaders)
                      (map_to_list (headerCounts allHeaders))) ≤ 1) as Hshort.
  { intros allHeaders Hread.
    destruct (@IdentifyJoinColumns_total_occurrences canonical_range allHeaders)
      as (Hmem & Hnd & _). simpl in Hmem, Hnd.
    apply NoDup_all_equal_short; [done |].
    intros c1 c2 [Hc1 _]%Hmem [Hc2 _]%Hmem. by apply (Hone allHeaders). }
  rewrite (@main_single_join_column R1) by done.
  rewrite (@main_single_join_column R2) by done. done.
Qed.

Lemma main_deterministic_single_join_column_witness :
  @main canonical_range scenario1 ["a.csv"; "b.csv"]
    = @main reversed_range scenario1 ["a.csv"; "b.csv"].
Proof.
  apply main_deterministic_single_join_column.
  compute_headers_read. simpl.
  intros c1 c2 H1 H2.
  repeat case_decide; subst; try done; simpl in *; lia.
Defined.

Lemma keyOf_single (c : string) (rec : Record) :
  keyOf [c] rec = rec_index rec c.
Proof. rewrite keyOf_cons. simpl. apply string_app_nil_r. Qed.

(** A column on which all the records of a non-empty combination agree is
    written with that value. *)
Lemma first_value_agreed (col v : string) (recs : list Record) :
  recs ≠ [] → Forall (λ rec, rec_index rec col = v) recs →
  default "" (first_value col recs) = v.
Proof.
  intros Hne Hall. induction Hall as [|rec recs Hrec Hall IH]; [done |].
  simpl. unfold rec_index in Hrec.
  destruct (rec !! col) as [v'|]; [done |]. simpl in Hrec.
  destruct recs as [|rec' recs]; [done |]. by apply IH.
Qed.

Lemma ReadAllInputSources_key_source `{MapRange} (readers : list Reader)
    (allHeaders : list (list string)) (joinColumns keys : list string)
    (allData : list DataCollection) (k : string) :
  ReadAllInputSources readers allHeaders joinColumns = Ok (keys, allData) →
  k ∈ keys → ∃ dc, dc ∈ allData ∧ data_index dc k ≠ [].
Proof.
  intros Hread Hk.
  destruct (ReadAllInputSources_collections _ _ _ _ _ Hread) as [_ Hloaded].
  unfold ReadAllInputSources in Hread.
  destruct (ReadAll_loop 0 readers allHeaders joinColumns ∅ [])
    as [[keyMap loaded] | |] eqn:Hloop; simpl in Hread; [| done | done].
  injection Hread as <- <-.
  destruct (ReadAll_loop_spec _ _ _ _ _ _ _ _ Hloop)
    as (loaded' & -> & _ & _ & Hdom). simpl in *.
  unfold sort_Strings in Hk. rewrite merge_sort_Permutation in Hk.
  apply range_keys_dom, Hdom in Hk as [Hk | (dc & Hdc & Hk)];
    [by rewrite dom_empty in Hk |].
  exists dc. split; [done |].
  apply elem_of_dom in Hk as [l Hl].
  apply list_elem_of_lookup_1 in Hdc as [i Hi].
  destruct (Hloaded i dc Hi) as (r & headers & _ & _ & Hdata).
  unfold data_index. rewrite Hl. simpl.
  eapply (ReadData_loop_nonempty _ _ _ _ _ Hdata); [| exact Hl].
  intros k' l'. unfold NewDataCollection. simpl. by rewrite lookup_empty.
Qed.

(** X21: with a single join column, every data row written for a key of the
    key universe carries the key in that column. *)
Theorem join_column_cell_is_key `{MapRange} (readers : list Reader)
    (allHeaders : list (list string)) (c : string) (keys : list string)
    (allData : list DataCollection) (outputColumns : list string)
    (k : string) (j : nat) (row : list string) :
  ReadAllInputSources readers allHeaders [c] = Ok (keys, allData) →
  k ∈ keys → outputColumns !! j = Some c →
  row ∈ WriteCSVs k outputColumns allData [] →
  row !! j = Some k.
Proof.
  intros Hread Hk Hcol Hrow.
  destruct (ReadAllInputSources_collections _ _ _ _ _ Hread) as [_ Hloaded].
  assert (∀ dc rec, dc ∈ allData → rec ∈ data_index dc k →
                    rec_index rec c = k) as Hkey.
  { intros dc rec Hdc Hrec.
    apply list_elem_of_lookup_1 in Hdc as [i Hi].
    destruct (Hloaded i dc Hi) as (r & headers & _ & _ & Hdata).
    destruct (ReadData_row_order _ _ _ _ Hdata) as (recs & _ & Hidx).
    rewrite Hidx in Hrec. apply list_elem_of_filter in Hrec as [Hkeyof _].
    by rewrite keyOf_single in Hkeyof. }
  rewrite WriteCSVs_rows in Hrow. simpl in Hrow.
  apply list_elem_of_fmap in Hrow as (comb & -> & Hcomb).
  pose proof (nested_loops_structure k allData comb Hcomb) as Hstruct.
  assert (Forall (λ rec, rec_index rec c = k) comb) as Hagree.
  { apply Forall_forall. intros rec Hrec.
    apply list_elem_of_lookup_1 in Hrec as [i Hi].
    destruct (Forall2_lookup_l _ _ _ _ _ Hstruct Hi) as (dc & Hdc & Hin).
    apply (Hkey dc rec); [| done].
    apply list_elem_of_lookup_2 in Hdc.
    by apply list_elem_of_filter in Hdc as [_ ?]. }
  assert (comb ≠ []) as Hne.
  { intros ->. apply Forall2_nil_inv_l in Hstruct.
    destruct (ReadAllInputSources_key_source _ _ _ _ _ _ Hread Hk)
      as (dc & Hdc & Hrecs).
    assert (dc ∈ filter (λ dc, data_index dc k ≠ []) allData) as Hin
      by (by apply list_elem_of_filter).
    rewrite Hstruct in Hin. by apply elem_of_nil in Hin. }
  rewrite prt_row_cells, list_lookup_fmap, Hcol. simpl. f_equal.
  by apply first_value_agreed.
Qed.

Lemma join_column_cell_is_key_witness :
  ["2"; "bob"; ""] !! 0 = Some "2".
Proof.
  apply (@join_column_cell_is_key canonical_range
           [[RRow ["1"; "alice"]; RRow ["2"; "bob"]];
            [RRow ["1"; "30"]; RRow ["1"; "31"]]]
           [["id"; "name"]; ["id"; "age"]] "id" ["1"; "2"]
           [mkDataCollection
              {["1" := [{["id" := "1"; "name" := "alice"]}];
                "2" := [{["id" := "2"; "name" := "bob"]}]]};
            mkDataCollection
              {["1" := [{["id" := "1"; "age" := "30"]};
                        {["id" := "1"; "age" := "31"]}]]}]
           ["id"; "name"; "age"] "2" 0).
  - vm_compute. reflexivity.
  - right. left.
  - reflexivity.
  - vm_compute. left.
Defined.

(** ** Loading all sources: [ReadAllInputSources] *)

Lemma ReadAll_loop_prefix `{MapRange} (before rest : list Reader)
    (allHeaders : list (list string)) (joinColumns : list string) (i : nat)
    (keyMap : gmap string bool) (allData : list DataCollection) :
  (∀ j r, before !! j = Some r → ∃ headers dc,
      allHeaders !! (i + j) = Some headers ∧
      ReadData r headers joinColumns = Ok dc) →
  ∃ keyMap' allData',
    ReadAll_loop i (before ++ rest) allHeaders joinColumns keyMap allData
    = ReadAll_loop (i + length before) rest allHeaders joinColumns
        keyMap' allData'.
Proof.
  revert i keyMap allData.
  induction before as [|r before IH]; intros i keyMap allData Hloads.
  - simpl. rewrite Nat.add_0_r. eauto.
  - destruct (Hloads 0 r eq_refl) as (headers & dc & Hh & Hdc).
    rewrite Nat.add_0_r in Hh. simpl. rewrite Hh, Hdc. simpl.
    replace (i + S (length before)) with (S i + length before) by lia.
    apply IH. intros j r' Hj.
    replace (S i + j) with (i + S j) by lia. by apply (Hloads (S j)).
Qed.

(** X22: [ReadAllInputSources] returns exactly when every reader has a
    header at its position and [ReadData] loads it; otherwise the first
    source that does not decides how the run ends: as its [ReadData] ends,
    or by a panic when there is no header at its position. *)
Theorem ReadAllInputSources_outcome `{MapRange} (readers : list Reader)
    (allHeaders : list (list string)) (joinColumns : list string) :
  ((∃ res, ReadAllInputSources readers allHeaders joinColumns = Ok res) ↔
   ∀ j r, readers !! j = Some r → ∃ headers dc,
     allHeaders !! j = Some headers ∧ ReadData r headers joinColumns = Ok dc) ∧
  (∀ before r after,
     readers = before ++ r :: after →
     (∀ j r', before !! j = Some r' → ∃ headers dc,
        allHeaders !! j = Some headers ∧
        ReadData r' headers joinColumns = Ok dc) →
     match allHeaders !! length before with
     | None => ReadAllInputSources readers allHeaders joinColumns = Panic
     | Some headers =>
         match ReadData r headers joinColumns with
         | Ok _ => True
         | Fatal msg =>
             ReadAllInputSources readers allHeaders joinColumns = Fatal msg
         | Panic => ReadAllInputSources readers allHeaders joinColumns = Panic
         end
     end).
Proof.
  split.
  - split.
    + intros [[keys allData] Hres] j r Hj.
      destruct (ReadAllInputSources_collections _ _ _ _ _ Hres) as [Hlen Hidx].
      destruct (lookup_lt_is_Some_2 allData j) as [dc Hdc].
      { rewrite Hlen. by apply lookup_lt_Some in Hj. }
      destruct (Hidx j dc Hdc) as (r' & headers & Hr' & Hh & Hdata).
      exists headers, dc. split; [done |]. congruence.
    + intros Hloads. unfold ReadAllInputSources.
      destruct (ReadAll_loop_prefix readers [] allHeaders joinColumns 0 ∅ [])
        as (keyMap' & allData' & Hloop); [done |].
      rewrite app_nil_r in Hloop. rewrite Hloop. simpl. eauto.
  - intros before r after -> Hloads. unfold ReadAllInputSources.
    destruct (ReadAll_loop_prefix before (r :: after) allHeaders joinColumns
                0 ∅ []) as (keyMap' & allData' & ->); [done |].
    simpl. destruct (allHeaders !! length before) as [headers|]; [| done].
    by destruct (ReadData r headers joinColumns).
Qed.

Lemma ReadAllInputSources_outcome_witness :
  @ReadAllInputSources canonical_range
    [[RRow ["1"; "a"]]; [RRow ["1"; "30"]; RErr []]; [RRow ["1"; "x"; "y"]]]
    [["id"; "name"]; ["id"; "age"]; ["id"; "city"]] ["id"]
  = Fatal "failed to read/parse CSV input".
Proof.
  destruct (@ReadAllInputSources_outcome canonical_range
    [[RRow ["1"; "a"]]; [RRow ["1"; "30"]; RErr []]; [RRow ["1"; "x"; "y"]]]
    [["id"; "name"]; ["id"; "age"]; ["id"; "city"]] ["id"]) as [_ Hfirst].
  apply (Hfirst [[RRow ["1"; "a"]]] [RRow ["1"; "30"]; RErr []]
           [[RRow ["1"; "x"; "y"]]] eq_refl).
  intros [|j] r' Hj; [| destruct j; discriminate Hj].
  injection Hj as <-. eexists _, _. split; reflexivity.
Defined.

(** ** Slices *)

(** X19: the sharing of backing arrays by [append(recs, rec)] is never
    observed.  Run on Go slices, from any memory in which the slice [recs]
    is within bounds and whatever capacities the runtime picks when it
    reallocates, [recurse] calls the printer on the same record lists, in
    the same order, as on lists; and when it returns the caller's slice
    still reads the same records. *)
Theorem recurse_mem_siblings_isolated {St : Type} (growcap : nat → nat)
    (key : string) (remain : list DataCollection)
    (prt : list Record → St → St) (s : Slices.slice)
    (h : list (list Record)) (st : St) :
  Slices.slice_ok h s →
  (Slices.recurse_mem growcap key s remain prt (h, st)).2
    = recurse key (Slices.view h s) remain prt st ∧
  Slices.view (Slices.recurse_mem growcap key s remain prt (h, st)).1 s
    = Slices.view h s.
Proof.
  intros Hok.
  destruct (SlicesFacts.recurse_mem_refines growcap key remain prt s h st Hok)
    as [Hres Hun].
  split; [done |].
  by destruct (SlicesFacts.view_unchanged _ _ _ Hok Hun).
Qed.

(** A slice of length 1 with room for two more records, over two sources
    with two records each: the four sibling calls of the inner loop write
    to the same two cells of the one array. *)
Lemma recurse_mem_siblings_isolated_witness :
  (Slices.recurse_mem (λ n, 2 * n) "1" (Slices.mkSlice 0 1 3)
     [mkDataCollection {["1" := [{["x" := "a1"]}; {["x" := "a2"]}]]};
      mkDataCollection {["1" := [{["y" := "b1"]}; {["y" := "b2"]}]]}]
     (λ c acc, acc ++ [c]) ([[{["z" := "0"]}; ∅; ∅]], [])).2
  = [[{["z" := "0"]}; {["x" := "a1"]}; {["y" := "b1"]}];
     [{["z" := "0"]}; {["x" := "a1"]}; {["y" := "b2"]}];
     [{["z" := "0"]}; {["x" := "a2"]}; {["y" := "b1"]}];
     [{["z" := "0"]}; {["x" := "a2"]}; {["y" := "b2"]}]]
  ∧ length (Slices.recurse_mem (λ n, 2 * n) "1" (Slices.mkSlice 0 1 3)
     [mkDataCollection {["1" := [{["x" := "a1"]}; {["x" := "a2"]}]]};
      mkDataCollection {["1" := [{["y" := "b1"]}; {["y" := "b2"]}]]}]
     (λ c acc, acc ++ [c]) ([[{["z" := "0"]}; ∅; ∅]], [])).1 = 1.
Proof.
  destruct (recurse_mem_siblings_isolated (λ n, 2 * n) "1"
    [mkDataCollection {["1" := [{["x" := "a1"]}; {["x" := "a2"]}]]};
     mkDataCollection {["1" := [{["y" := "b1"]}; {["y" := "b2"]}]]}]
    (λ c acc, acc ++ [c]) (Slices.mkSlice 0 1 3)
    [[{["z" := "0"]}; ∅; ∅]] []) as [Hres _].
  { split; simpl; [lia | by right]. }
  split; [rewrite Hres; vm_compute; reflexivity | vm_compute; reflexivity].
Defined.
